(** * micrograd/engine.go: a scalar reverse-mode differentiation engine

    Shallow embedding of [src/micrograd/engine.go].

    - A Go [*Value] is an address into an append-only store ([heap]); the
      address is the node's identity.  Go never frees a reachable node and
      [&Value{...}] always yields a fresh pointer, so allocation appends.
    - [float64] is Rocq's primitive binary64 [float]; the arithmetic is the
      unfused IEEE one (what the Go compiler emits on amd64).
    - The [backward func()] closures are defunctionalised: one constructor
      per function literal of the source, carrying the pointers it captures.
    - A nil or dangling dereference is the [None] of the option monad.
    - [math.Pow], [math.Log] and the [%f] verb of [fmt.Sprintf] belong to the
      Go standard library; they are parameters of the development.
    - The [fmt.Printf]/[fmt.Println] diagnostics and the [String] method
      do not touch the store and are left out. *)

From Stdlib Require Import Floats.
From stdpp Require Import base option list gmap sets strings relations.

Set Warnings "-clear-no-such-hyp".

(** ** Data model *)

Abbreviation addr := nat (only parsing).

(** The function literals assigned to the [backward] field. *)
Inductive closure : Type :=
| fn_nop                                  (* func() {} *)
| fn_Add (v other out : addr)             (* literal in Add *)
| fn_AddScalar (v out : addr)             (* literal in AddScalar *)
| fn_Multiply (v other out : addr)        (* literal in Multiply *)
| fn_Pow (v exp out : addr)               (* literal in Pow *)
| fn_ReLU (v out : addr).                 (* literal in ReLU *)

Record Value : Type := mkValue {
  data : float;
  grad : float;
  children : list addr;
  op : string;
  backward : closure
}.

Abbreviation heap := (list Value) (only parsing).

Definition set_data (d : float) (nd : Value) : Value :=
  mkValue d (grad nd) (children nd) (op nd) (backward nd).
Definition set_grad (g : float) (nd : Value) : Value :=
  mkValue (data nd) g (children nd) (op nd) (backward nd).
Definition set_backward (f : closure) (nd : Value) : Value :=
  mkValue (data nd) (grad nd) (children nd) (op nd) f.

(** [&Value{...}]: a fresh node at the end of the store. *)
Definition alloc (nd : Value) (h : heap) : addr * heap :=
  (length h, h ++ [nd]).

(** A field assignment through a pointer. *)
Definition modify (p : addr) (f : Value -> Value) (h : heap) : option heap :=
  nd ← h !! p; Some (<[p := f nd]> h).

(** [p.grad += d] *)
Definition add_grad (p : addr) (d : float) (h : heap) : option heap :=
  modify p (fun nd => set_grad (grad nd + d)%float nd) h.

Fixpoint foldM {A S : Type} (f : A -> S -> option S) (l : list A) (s : S)
  : option S :=
  match l with
  | [] => Some s
  | x :: l' => s' ← f x s; foldM f l' s'
  end.

(** ** Constructors that do not need the math library *)

Definition NewValue (d : float) (h : heap) : addr * heap :=
  alloc (mkValue d 0%float [] EmptyString fn_nop) h.

Definition convertToValue (d : float) (cs : list addr) (o : string) (h : heap)
  : addr * heap :=
  alloc (mkValue d 0%float cs o fn_nop) h.

Definition Add (v other : addr) (h : heap) : option (addr * heap) :=
  nv ← h !! v; no ← h !! other;
  let '(out, h1) := convertToValue (data nv + data no)%float [v; other] "+"%string h in
  h2 ← modify out (set_backward (fn_Add v other out)) h1;
  Some (out, h2).

Definition AddScalar (v : addr) (scalar : float) (h : heap)
  : option (addr * heap) :=
  nv ← h !! v;
  let '(out, h1) := convertToValue (data nv + scalar)%float [v] "+scalar"%string h in
  h2 ← modify out (set_backward (fn_AddScalar v out)) h1;
  Some (out, h2).

Definition Multiply (v other : addr) (h : heap) : option (addr * heap) :=
  nv ← h !! v; no ← h !! other;
  let '(out, h1) := convertToValue (data nv * data no)%float [v; other] "*"%string h in
  h2 ← modify out (set_backward (fn_Multiply v other out)) h1;
  Some (out, h2).

Definition MulScalar (v : addr) (scalar : float) (h : heap)
  : option (addr * heap) :=
  let '(k, h1) := convertToValue scalar [] "scalar"%string h in
  Multiply v k h1.

(** [v] was a pointer before [out] was allocated: [v.data] is a read of
    the store of the call. *)
Definition ReLU (v : addr) (h : heap) : option (addr * heap) :=
  let '(out, h1) := convertToValue 0%float [v] "ReLU"%string h in
  nv ← h !! v;
  h2 ← (if PrimFloat.ltb 0 (data nv) then modify out (set_data (data nv)) h1
        else Some h1);
  h3 ← modify out (set_backward (fn_ReLU v out)) h2;
  Some (out, h3).

Definition Neg (v : addr) (h : heap) : option (addr * heap) :=
  let '(k, h1) := convertToValue (-1)%float [] "neg"%string h in
  Multiply v k h1.

Definition Sub (v other : addr) (h : heap) : option (addr * heap) :=
  '(n, h1) ← Neg other h;
  Add v n h1.

Definition SubScalar (v : addr) (scalar : float) (h : heap)
  : option (addr * heap) :=
  let '(k, h1) := convertToValue scalar [] EmptyString h in
  Sub v k h1.

(** ** The topological sort of [Backward]

    [buildTopo] is the recursive closure of the source; [visited] is the
    [map[*Value]bool] used as a set of pointers and [topo] the slice it
    appends to.  The recursion is on a depth budget; [Backward] gives it
    one more than the number of nodes, which [buildTopo_ok] below proves
    enough on every store the constructors can build. *)

Abbreviation topo_state := (gset nat * list nat)%type (only parsing).

Fixpoint buildTopo (fuel : nat) (h : heap) (node : addr) (st : topo_state)
  : option topo_state :=
  match fuel with
  | O => None
  | S fuel' =>
      if decide (node ∈ st.1) then Some st
      else
        nd ← h !! node;
        st' ← foldM (buildTopo fuel' h) (children nd) ({[node]} ∪ st.1, st.2);
        Some (st'.1, st'.2 ++ [node])
  end.

Section Engine.

(** [math.Pow], [math.Log] and [fmt.Sprintf("%f", _)]. *)
Variable math_Pow : float -> float -> float.
Variable math_Log : float -> float.
Variable fmt_f : float -> string.

Definition Pow (v exp : addr) (h : heap) : option (addr * heap) :=
  nv ← h !! v; ne ← h !! exp;
  let '(out, h1) :=
    convertToValue (math_Pow (data nv) (data ne)) [v; exp]
                   ("**" +:+ fmt_f (data ne))%string h in
  h2 ← modify out (set_backward (fn_Pow v exp out)) h1;
  Some (out, h2).

Definition PowScalar (v : addr) (scalar : float) (h : heap)
  : option (addr * heap) :=
  let '(k, h1) := convertToValue scalar [] "scalar"%string h in
  Pow v k h1.

Definition Div (v other : addr) (h : heap) : option (addr * heap) :=
  '(p, h1) ← PowScalar other (-1)%float h;
  Multiply v p h1.

Definition DivScalar (v : addr) (scalar : float) (h : heap)
  : option (addr * heap) :=
  let '(k, h1) := convertToValue scalar [] "scalar"%string h in
  Div v k h1.

(** Calling a [backward] closure. Every [x.f] of the literal is a read of
    the store at the time the statement runs. *)
Definition call (f : closure) (h : heap) : option heap :=
  match f with
  | fn_nop => Some h
  | fn_Add v other out =>
      no ← h !! out;
      h1 ← add_grad v (grad no) h;
      no1 ← h1 !! out;
      add_grad other (grad no1) h1
  | fn_AddScalar v out =>
      no ← h !! out;
      add_grad v (grad no) h
  | fn_Multiply v other out =>
      nother ← h !! other; no ← h !! out;
      h1 ← add_grad v (data nother * grad no)%float h;
      nv ← h1 !! v; no1 ← h1 !! out;
      add_grad other (data nv * grad no1)%float h1
  | fn_Pow v exp out =>
      nv ← h !! v;
      h1 ← (if negb (PrimFloat.eqb (data nv) 0)
            then ne ← h !! exp; no ← h !! out;
                 add_grad v (data ne * math_Pow (data nv) (data ne - 1)
                             * grad no)%float h
            else Some h);
      nv1 ← h1 !! v;
      if PrimFloat.ltb 0 (data nv1)
      then ne1 ← h1 !! exp; no1 ← h1 !! out;
           add_grad exp (math_Log (data nv1) * data no1 * grad no1)%float h1
      else Some h1
  | fn_ReLU v out =>
      nv ← h !! v;
      if PrimFloat.ltb 0 (data nv)
      then no ← h !! out; add_grad v (grad no) h
      else Some h
  end.

(** One iteration of the reverse loop of [Backward]. *)
Definition backward_step (node : addr) (st : gset addr * heap)
  : option (gset addr * heap) :=
  if decide (node ∈ st.1) then Some st
  else
    nd ← st.2 !! node;
    h' ← call (backward nd) st.2;
    Some ({[node]} ∪ st.1, h').

Definition Backward (v : addr) (h : heap) : option heap :=
  h1 ← modify v (set_grad 1%float) h;
  st ← buildTopo (S (length h1)) h1 v (∅, []);
  st' ← foldM backward_step (reverse st.2) (∅, h1);
  Some st'.2.

End Engine.

(** ** Stores built by the constructors

    The graph is append-only: a node refers only to nodes that existed
    before it, and the pointers captured by its [backward] literal are its
    own address and its operands.  [wf] is that invariant, as a check that
    can be run on a concrete store. *)

Definition closure_ok (n : addr) (nd : Value) : bool :=
  match backward nd with
  | fn_nop => true
  | fn_Add v other out | fn_Multiply v other out | fn_Pow v other out =>
      bool_decide (out = n ∧ children nd = [v; other])
  | fn_AddScalar v out | fn_ReLU v out =>
      bool_decide (out = n ∧ children nd = [v])
  end.

Definition node_ok (n : addr) (nd : Value) : bool :=
  forallb (fun c => bool_decide (c < n)) (children nd) && closure_ok n nd.

Fixpoint wf_from (n : addr) (h : heap) : bool :=
  match h with
  | [] => true
  | nd :: h' => node_ok n nd && wf_from (S n) h'
  end.

Definition wf (h : heap) : Prop := wf_from 0 h = true.

(** The operand relation and reachability through it. *)
Definition edge (h : heap) (a b : addr) : Prop :=
  ∃ nd, h !! a = Some nd ∧ b ∈ children nd.

Definition reachable (h : heap) (root n : addr) : Prop := rtc (edge h) root n.

(** What a differentiation pass never writes: everything but [grad]. *)
Definition erase (h : heap) : heap := set_grad 0%float <$> h.

(** Postcondition of a depth-first traversal from [roots] started with the
    visited set [vis]: [new] is what it appended to the order and [vis'] the
    visited set it returns. *)
Definition ordered (h : heap) (vis : gset addr) (new : list addr) : Prop :=
  ∀ pre m post c, new = pre ++ m :: post → edge h m c → c ∈ vis ∨ c ∈ pre.

Definition dfs_post (h : heap) (roots : list addr)
    (vis vis' : gset addr) (new : list addr) : Prop :=
  (∀ m, m ∈ vis' ↔ m ∈ vis ∨ m ∈ new) ∧
  NoDup new ∧
  (∀ m, m ∈ new → m ∉ vis) ∧
  (∀ r, r ∈ roots → r ∈ vis') ∧
  (∀ m, m ∈ new → ∃ r, r ∈ roots ∧ reachable h r m) ∧
  (∀ m c, m ∈ new → edge h m c → c ∈ vis') ∧
  ordered h vis new.


(** ** Notions the statements use *)

(** [grad_step cs h h']: [h'] is [h] with new gradients at the addresses
    in [cs] and nothing else changed. *)
Definition grad_step (cs : list addr) (h h' : heap) : Prop :=
  erase h' = erase h ∧ ∀ q, q ∉ cs → h' !! q = h !! q.

(** A node without operands and with the no-op rule, as [NewValue] and the
    scalar constants of [MulScalar], [PowScalar], [Neg] build them. *)
Definition leaf_at (h : heap) (c : addr) : Prop :=
  ∃ ndc, h !! c = Some ndc ∧ children ndc = [] ∧ backward ndc = fn_nop.

(** The maximum of two floats by comparison, the [max(0, x)] of the
    operator table; with a NaN second operand it is the first one. *)
Definition float_max (x y : float) : float :=
  if PrimFloat.ltb x y then y else x.

(** A function with the special cases of [math.Pow] that some statements
    assume ([Pow(x, 1) = x], [Pow(±0, -1) = ±Inf]); it instantiates the
    parameter in closed examples. *)
Definition pow_cases (x y : float) : float :=
  if PrimFloat.eqb y 1 then x
  else if PrimFloat.eqb y (-1) then (1 / x)%float
  else nan.

(** ** Scenarios *)

(** [TestSanityCheck], with the unused leaf [b] of the cross-check
    scenario: the value of [y] and the gradient of [a] after [y.Backward()]. *)
Definition sanity_check (math_Pow : float → float → float)
    (math_Log : float → float) : option (float * float) :=
  let '(a, h) := NewValue (-4)%float [] in
  let '(b, h) := NewValue 2%float h in
  '(t1, h) ← MulScalar a 2%float h;
  '(t2, h) ← AddScalar t1 2%float h;
  '(z, h) ← Add t2 a h;
  '(r, h) ← ReLU z h;
  '(za, h) ← Multiply z a h;
  '(q, h) ← Add r za h;
  '(zz, h) ← Multiply z z h;
  '(hh, h) ← ReLU zz h;
  '(hq, h) ← Add hh q h;
  '(qa, h) ← Multiply q a h;
  '(y, h) ← Add hq qa h;
  h ← Backward math_Pow math_Log y h;
  ny ← h !! y; na ← h !! a;
  Some (data ny, grad na).

(** A chain [r = (a + 1) + 1] differentiated twice from [r] with no reset:
    the gradient of [a] after the first and after the second pass. *)
Definition chain_twice (math_Pow : float → float → float)
    (math_Log : float → float) : option (float * float) :=
  let '(a, h) := NewValue 2%float [] in
  '(m, h) ← AddScalar a 1%float h;
  '(r, h) ← AddScalar m 1%float h;
  h1 ← Backward math_Pow math_Log r h;
  n1 ← h1 !! a;
  h2 ← Backward math_Pow math_Log r h1;
  n2 ← h2 !! a;
  Some (grad n1, grad n2).

(** A store with sharing: [b = a + a], [c = b * a], and a leaf [d] that
    [c] does not reach. *)
Definition diamond_prog : option (addr * heap) :=
  let '(a, h) := NewValue 3%float [] in
  '(b, h) ← Add a a h;
  '(c, h) ← Multiply b a h;
  let '(d, h) := NewValue 5%float h in
  Some (c, h).

Definition diamond : heap :=
  Eval vm_compute in
    match diamond_prog with Some (_, h) => h | None => [] end.

(** ** Stores a client can build

    From the empty store, by the constructors of the package, by
    [Backward], and by resetting a gradient accumulator from outside. *)
Inductive built (math_Pow : float → float → float) (math_Log : float → float)
    (fmt_f : float → string) : list Value → Prop :=
| built_empty : built math_Pow math_Log fmt_f []
| built_NewValue d h :
    built math_Pow math_Log fmt_f h →
    built math_Pow math_Log fmt_f (NewValue d h).2
| built_Add v other out h h' :
    built math_Pow math_Log fmt_f h → Add v other h = Some (out, h') →
    built math_Pow math_Log fmt_f h'
| built_AddScalar v scalar out h h' :
    built math_Pow math_Log fmt_f h → AddScalar v scalar h = Some (out, h') →
    built math_Pow math_Log fmt_f h'
| built_Multiply v other out h h' :
    built math_Pow math_Log fmt_f h → Multiply v other h = Some (out, h') →
    built math_Pow math_Log fmt_f h'
| built_MulScalar v scalar out h h' :
    built math_Pow math_Log fmt_f h → MulScalar v scalar h = Some (out, h') →
    built math_Pow math_Log fmt_f h'
| built_Pow v exp out h h' :
    built math_Pow math_Log fmt_f h →
    Pow math_Pow fmt_f v exp h = Some (out, h') →
    built math_Pow math_Log fmt_f h'
| built_PowScalar v scalar out h h' :
    built math_Pow math_Log fmt_f h →
    PowScalar math_Pow fmt_f v scalar h = Some (out, h') →
    built math_Pow math_Log fmt_f h'
| built_ReLU v out h h' :
    built math_Pow math_Log fmt_f h → ReLU v h = Some (out, h') →
    built math_Pow math_Log fmt_f h'
| built_Neg v out h h' :
    built math_Pow math_Log fmt_f h → Neg v h = Some (out, h') →
    built math_Pow math_Log fmt_f h'
| built_Sub v other out h h' :
    built math_Pow math_Log fmt_f h → Sub v other h = Some (out, h') →
    built math_Pow math_Log fmt_f h'
| built_SubScalar v scalar out h h' :
    built math_Pow math_Log fmt_f h → SubScalar v scalar h = Some (out, h') →
    built math_Pow math_Log fmt_f h'
| built_Div v other out h h' :
    built math_Pow math_Log fmt_f h →
    Div math_Pow fmt_f v other h = Some (out, h') →
    built math_Pow math_Log fmt_f h'
| built_DivScalar v scalar out h h' :
    built math_Pow math_Log fmt_f h →
    DivScalar math_Pow fmt_f v scalar h = Some (out, h') →
    built math_Pow math_Log fmt_f h'
| built_Backward root h h' :
    built math_Pow math_Log fmt_f h →
    Backward math_Pow math_Log root h = Some h' →
    built math_Pow math_Log fmt_f h'
| built_reset p g h h' :
    built math_Pow math_Log fmt_f h → modify p (set_grad g) h = Some h' →
    built math_Pow math_Log fmt_f h'.

(** ** The reverse loop without its guard *)

(** [node.backward()], the statement the reverse loop of [Backward] runs
    for a node it has not processed yet. *)
Definition run_rule (math_Pow : float → float → float)
    (math_Log : float → float) (node : addr) (h : list Value)
  : option (list Value) :=
  nd ← h !! node; call math_Pow math_Log (backward nd) h.

(** ** One call of a constructor

    [constructs h out h']: some constructor of the package, called on the
    store [h], returns the node [out] and the store [h']. *)
Inductive constructs (math_Pow : float → float → float)
    (fmt_f : float → string) (h : list Value) : nat → list Value → Prop :=
| constructs_NewValue d :
    constructs math_Pow fmt_f h (NewValue d h).1 (NewValue d h).2
| constructs_Add v other out h' :
    Add v other h = Some (out, h') → constructs math_Pow fmt_f h out h'
| constructs_AddScalar v scalar out h' :
    AddScalar v scalar h = Some (out, h') → constructs math_Pow fmt_f h out h'
| constructs_Multiply v other out h' :
    Multiply v other h = Some (out, h') → constructs math_Pow fmt_f h out h'
| constructs_MulScalar v scalar out h' :
    MulScalar v scalar h = Some (out, h') → constructs math_Pow fmt_f h out h'
| constructs_Pow v exp out h' :
    Pow math_Pow fmt_f v exp h = Some (out, h') →
    constructs math_Pow fmt_f h out h'
| constructs_PowScalar v scalar out h' :
    PowScalar math_Pow fmt_f v scalar h = Some (out, h') →
    constructs math_Pow fmt_f h out h'
| constructs_ReLU v out h' :
    ReLU v h = Some (out, h') → constructs math_Pow fmt_f h out h'
| constructs_Neg v out h' :
    Neg v h = Some (out, h') → constructs math_Pow fmt_f h out h'
| constructs_Sub v other out h' :
    Sub v other h = Some (out, h') → constructs math_Pow fmt_f h out h'
| constructs_SubScalar v scalar out h' :
    SubScalar v scalar h = Some (out, h') → constructs math_Pow fmt_f h out h'
| constructs_Div v other out h' :
    Div math_Pow fmt_f v other h = Some (out, h') →
    constructs math_Pow fmt_f h out h'
| constructs_DivScalar v scalar out h' :
    DivScalar math_Pow fmt_f v scalar h = Some (out, h') →
    constructs math_Pow fmt_f h out h'.

(** [extends h out h']: [h'] is [h] followed by new nodes, all with
    gradient 0, and [out] is the last of them. *)
Definition extends (h : list Value) (out : nat) (h' : list Value) : Prop :=
  ∃ t, h' = h ++ t ∧ S out = length h' ∧ length h ≤ out ∧
       Forall (λ nd, grad nd = 0%float) t.

(** ** Small programs over fresh leaves

    Each allocates its leaves at the end of an arbitrary store [h], builds
    a root, differentiates it and reads gradients back. *)

(** [d := a.Multiply(b); d.Backward()]: the gradients of [a] and [b]. *)
Definition product_grads (math_Pow : float → float → float)
    (math_Log : float → float) (h : list Value) (x y : float)
  : option (float * float) :=
  let '(a, h) := NewValue x h in
  let '(b, h) := NewValue y h in
  '(d, h) ← Multiply a b h;
  h ← Backward math_Pow math_Log d h;
  na ← h !! a; nb ← h !! b;
  Some (grad na, grad nb).

(** [d := a.Multiply(a); d.Backward()]: the gradient of [a]. *)
Definition square_grad (math_Pow : float → float → float)
    (math_Log : float → float) (h : list Value) (x : float) : option float :=
  let '(a, h) := NewValue x h in
  '(d, h) ← Multiply a a h;
  h ← Backward math_Pow math_Log d h;
  na ← h !! a;
  Some (grad na).

(** [c := a.AddScalar(k); c.Backward()]: the value of [c] and the
    gradient of [a]. *)
Definition add_scalar_grad (math_Pow : float → float → float)
    (math_Log : float → float) (h : list Value) (x k : float)
  : option (float * float) :=
  let '(a, h) := NewValue x h in
  '(c, h) ← AddScalar a k h;
  h ← Backward math_Pow math_Log c h;
  nc ← h !! c; na ← h !! a;
  Some (data nc, grad na).

(** [c := a.MulScalar(k); c.Backward()]: the value of [c] and the
    gradient of [a]. *)
Definition mul_scalar_grad (math_Pow : float → float → float)
    (math_Log : float → float) (h : list Value) (x k : float)
  : option (float * float) :=
  let '(a, h) := NewValue x h in
  '(c, h) ← MulScalar a k h;
  h ← Backward math_Pow math_Log c h;
  nc ← h !! c; na ← h !! a;
  Some (data nc, grad na).

(** [c := a.Neg(); c.Backward()]: the value of [c] and the gradient of [a]. *)
Definition neg_grad (math_Pow : float → float → float)
    (math_Log : float → float) (h : list Value) (x : float)
  : option (float * float) :=
  let '(a, h) := NewValue x h in
  '(c, h) ← Neg a h;
  h ← Backward math_Pow math_Log c h;
  nc ← h !! c; na ← h !! a;
  Some (data nc, grad na).

(** [e := a.Sub(b); e.Backward()], as in [TestSubtraction]: the value of
    [e] and the gradients of [a] and [b]. *)
Definition sub_grads (math_Pow : float → float → float)
    (math_Log : float → float) (h : list Value) (x y : float)
  : option (float * float * float) :=
  let '(a, h) := NewValue x h in
  let '(b, h) := NewValue y h in
  '(e, h) ← Sub a b h;
  h ← Backward math_Pow math_Log e h;
  ne ← h !! e; na ← h !! a; nb ← h !! b;
  Some (data ne, grad na, grad nb).

(** [c := a.Add(b).Add(a); c.Backward()], as in
    [TestChainedAddForwardAndBackward]: the gradients of [a] and [b]. *)
Definition chained_add_grads (math_Pow : float → float → float)
    (math_Log : float → float) (h : list Value) (x y : float)
  : option (float * float) :=
  let '(a, h) := NewValue x h in
  let '(b, h) := NewValue y h in
  '(s, h) ← Add a b h;
  '(c, h) ← Add s a h;
  h ← Backward math_Pow math_Log c h;
  na ← h !! a; nb ← h !! b;
  Some (grad na, grad nb).

(** [c := a.Add(b); c = c.AddScalar(1); c = c.Add(c.AddScalar(1));
    c.Backward()], as in [TestOverAccumulation]: the gradients of [a],
    [b] and of the node [c.AddScalar(1)] that the root uses twice over. *)
Definition over_accumulation_grads (math_Pow : float → float → float)
    (math_Log : float → float) (h : list Value) (x y : float)
  : option (float * float * float) :=
  let '(a, h) := NewValue x h in
  let '(b, h) := NewValue y h in
  '(c1, h) ← Add a b h;
  '(c2, h) ← AddScalar c1 1%float h;
  '(c3, h) ← AddScalar c2 1%float h;
  '(c4, h) ← Add c2 c3 h;
  h ← Backward math_Pow math_Log c4 h;
  na ← h !! a; nb ← h !! b; n2 ← h !! c2;
  Some (grad na, grad nb, grad n2).

(** [c := a.SubScalar(k); c.Backward()]: the value of [c] and the
    gradient of [a]. *)
Definition sub_scalar_grad (math_Pow : float → float → float)
    (math_Log : float → float) (h : list Value) (x k : float)
  : option (float * float) :=
  let '(a, h) := NewValue x h in
  '(c, h) ← SubScalar a k h;
  h ← Backward math_Pow math_Log c h;
  nc ← h !! c; na ← h !! a;
  Some (data nc, grad na).

(** [r := a.ReLU(); r.Backward()], as in [TestReLU2]: the value of [r]
    and the gradient of [a]. *)
Definition relu_grad (math_Pow : float → float → float)
    (math_Log : float → float) (h : list Value) (x : float)
  : option (float * float) :=
  let '(a, h) := NewValue x h in
  '(r, h) ← ReLU a h;
  h ← Backward math_Pow math_Log r h;
  nr ← h !! r; na ← h !! a;
  Some (data nr, grad na).

(** [p := a.PowScalar(k); p.Backward()], as in [TestPowScalar]: the value
    of [p], the gradient of [a] and the gradient of the node that holds
    [k]. *)
Definition pow_scalar_grads (math_Pow : float → float → float)
    (math_Log : float → float) (fmt_f : float → string) (h : list Value)
    (x k : float) : option (float * float * float) :=
  let '(a, h) := NewValue x h in
  '(p, h) ← PowScalar math_Pow fmt_f a k h;
  h ← Backward math_Pow math_Log p h;
  np ← h !! p; na ← h !! a; nk ← h !! S a;
  Some (data np, grad na, grad nk).

(** [q := a.Div(b); q.Backward()]: the value of [q] and the gradients of
    [a] and [b]. *)
Definition div_grads (math_Pow : float → float → float)
    (math_Log : float → float) (fmt_f : float → string) (h : list Value)
    (x y : float) : option (float * float * float) :=
  let '(a, h) := NewValue x h in
  let '(b, h) := NewValue y h in
  '(q, h) ← Div math_Pow fmt_f a b h;
  h ← Backward math_Pow math_Log q h;
  nq ← h !! q; na ← h !! a; nb ← h !! b;
  Some (data nq, grad na, grad nb).

(** [q := a.DivScalar(k); q.Backward()]: the value of [q] and the
    gradient of [a]. *)
Definition div_scalar_grad (math_Pow : float → float → float)
    (math_Log : float → float) (fmt_f : float → string) (h : list Value)
    (x k : float) : option (float * float) :=
  let '(a, h) := NewValue x h in
  '(q, h) ← DivScalar math_Pow fmt_f a k h;
  h ← Backward math_Pow math_Log q h;
  nq ← h !! q; na ← h !! a;
  Some (data nq, grad na).

(** ** The term a rule adds to one operand

    [rule_term f k a]: what the literal [f], run on the store [k], adds to
    the gradient of its operand [a] when [a] occurs once among the
    operands; [None] when the guard of the literal skips the update. *)
Definition data_at (k : list Value) (q : nat) : option float :=
  data <$> k !! q.

Definition grad_at (k : list Value) (q : nat) : option float :=
  grad <$> k !! q.

Definition rule_term (math_Pow : float → float → float)
    (math_Log : float → float) (f : closure) (k : list Value) (a : nat)
  : option float :=
  match f with
  | fn_nop => None
  | fn_Add v other out => grad_at k out
  | fn_AddScalar v out => grad_at k out
  | fn_Multiply v other out =>
      d ← data_at k (if decide (a = v) then other else v);
      g ← grad_at k out;
      Some (d * g)%float
  | fn_Pow v exp out =>
      x ← data_at k v; e ← data_at k exp;
      y ← data_at k out; g ← grad_at k out;
      if decide (a = v)
      then (if negb (PrimFloat.eqb x 0)
            then Some (e * math_Pow x (e - 1) * g)%float else None)
      else (if PrimFloat.ltb 0 x
            then Some (math_Log x * y * g)%float else None)
  | fn_ReLU v out =>
      x ← data_at k v;
      if PrimFloat.ltb 0 x then grad_at k out else None
  end.

Definition add_term (c : option float) (g : float) : float :=
  match c with Some d => (g + d)%float | None => g end.

(** ** Basic facts about the store *)

Lemma wf_from_lookup (h : heap) : ∀ k n nd,
  wf_from k h = true → h !! n = Some nd → node_ok (k + n) nd = true.
Proof.
  induction h as [|x h IH]; intros k n nd Hwf Hl; [done|].
  simpl in Hwf. apply andb_prop in Hwf as [Hx Hh].
  destruct n as [|n]; simpl in Hl.
  - injection Hl as ->. by rewrite Nat.add_0_r.
  - replace (k + S n) with (S k + n) by lia. by apply IH.
Qed.

Lemma wf_from_intro (h : heap) : ∀ k,
  (∀ n nd, h !! n = Some nd → node_ok (k + n) nd = true) → wf_from k h = true.
Proof.
  induction h as [|x h IH]; intros k H; [done|].
  simpl. apply andb_true_intro. split.
  - specialize (H 0 x eq_refl). by rewrite Nat.add_0_r in H.
  - apply IH. intros n nd Hl. replace (S k + n) with (k + S n) by lia.
    by apply H.
Qed.

Lemma wf_lookup (h : heap) (n : addr) (nd : Value) :
  wf h → h !! n = Some nd → node_ok n nd = true.
Proof. intros Hwf Hl. exact (wf_from_lookup h 0 n nd Hwf Hl). Qed.

Lemma wf_intro (h : heap) :
  (∀ n nd, h !! n = Some nd → node_ok n nd = true) → wf h.
Proof. intros H. apply wf_from_intro. exact H. Qed.

Lemma node_ok_children (n : addr) (nd : Value) (c : addr) :
  node_ok n nd = true → c ∈ children nd → c < n.
Proof.
  unfold node_ok. intros H Hc. apply andb_prop in H as [H _].
  rewrite forallb_forall in H. apply list_elem_of_In in Hc.
  specialize (H c Hc). by apply bool_decide_eq_true in H.
Qed.

Lemma edge_lt (h : heap) (a b : addr) : wf h → edge h a b → b < a.
Proof.
  intros Hwf (nd & Hl & Hb). eapply node_ok_children; [|done].
  by eapply wf_lookup.
Qed.

Lemma edge_valid (h : heap) (a b : addr) : edge h a b → a < length h.
Proof. intros (nd & Hl & _). by eapply lookup_lt_Some. Qed.

Lemma reachable_le (h : heap) (a b : addr) : wf h → reachable h a b → b ≤ a.
Proof.
  intros Hwf H. induction H as [|x y z Hxy _ IH]; [done|].
  apply (edge_lt h) in Hxy; [lia|done].
Qed.

Lemma erase_lookup (h h' : heap) (n : addr) (nd : Value) :
  erase h' = erase h → h !! n = Some nd →
  ∃ nd', h' !! n = Some nd' ∧ set_grad 0%float nd' = set_grad 0%float nd.
Proof.
  intros He Hl.
  assert (erase h' !! n = Some (set_grad 0%float nd)) as H.
  { rewrite He. unfold erase. by rewrite list_lookup_fmap, Hl. }
  unfold erase in H. rewrite list_lookup_fmap in H.
  destruct (h' !! n) as [nd'|]; [|done]. simpl in H.
  exists nd'. split; [done|congruence].
Qed.

Lemma set_grad_0_inv (nd nd' : Value) :
  set_grad 0%float nd' = set_grad 0%float nd →
  data nd' = data nd ∧ children nd' = children nd ∧ op nd' = op nd ∧
  backward nd' = backward nd.
Proof. destruct nd, nd'. unfold set_grad. simpl. intros [=]. by subst. Qed.

Lemma erase_length (h h' : heap) : erase h' = erase h → length h' = length h.
Proof.
  intros He. apply (f_equal length) in He. unfold erase in He.
  by rewrite !length_fmap in He.
Qed.

Lemma erase_edge (h h' : heap) (a b : addr) :
  erase h' = erase h → edge h a b → edge h' a b.
Proof.
  intros He (nd & Hl & Hb).
  destruct (erase_lookup h h' a nd He Hl) as (nd' & Hl' & Heq).
  apply set_grad_0_inv in Heq as (_ & Hc & _).
  exists nd'. split; [done|]. by rewrite Hc.
Qed.

Lemma erase_reachable (h h' : heap) (a b : addr) :
  erase h' = erase h → reachable h a b → reachable h' a b.
Proof.
  intros He H. induction H as [|x y z Hxy _ IH]; [apply rtc_refl|].
  eapply rtc_l; [|exact IH]. by eapply erase_edge.
Qed.

Lemma erase_wf (h h' : heap) : erase h' = erase h → wf h → wf h'.
Proof.
  intros He Hwf. apply wf_intro. intros n nd' Hl'.
  destruct (erase_lookup h' h n nd' (eq_sym He) Hl') as (nd & Hl & Heq).
  apply set_grad_0_inv in Heq as (_ & Hc & _ & Hb).
  pose proof (wf_lookup h n nd Hwf Hl) as Hok.
  unfold node_ok, closure_ok in *. by rewrite <- Hc, <- Hb.
Qed.

Lemma modify_grad_erase (p : addr) (g : Value → float) (h h' : heap) :
  modify p (λ nd, set_grad (g nd) nd) h = Some h' →
  erase h' = erase h ∧ ∀ q, q ≠ p → h' !! q = h !! q.
Proof.
  unfold modify. intros H. destruct (h !! p) as [nd|] eqn:Hl; [|done].
  simpl in H. injection H as <-. split.
  - unfold erase. rewrite list_fmap_insert. apply list_insert_id.
    rewrite list_lookup_fmap, Hl. by destruct nd.
  - intros q Hq. by apply list_lookup_insert_ne.
Qed.

Lemma modify_is_Some (p : addr) (f : Value → Value) (h : heap) :
  p < length h → ∃ nd, h !! p = Some nd ∧ modify p f h = Some (<[p := f nd]> h).
Proof.
  intros Hp. apply lookup_lt_is_Some in Hp as [nd Hl].
  exists nd. split; [done|]. unfold modify. by rewrite Hl.
Qed.

(** ** The constructors on a store *)

Lemma lookup_snoc0 (h : heap) (x : Value) (t : heap) :
  (h ++ x :: t) !! length h = Some x.
Proof. by apply list_lookup_middle. Qed.

Lemma lookup_snoc1 (h : heap) (x y : Value) (t : heap) :
  (h ++ x :: y :: t) !! S (length h) = Some y.
Proof.
  replace (h ++ x :: y :: t) with ((h ++ [x]) ++ y :: t)
    by (by rewrite <- app_assoc).
  apply list_lookup_middle. rewrite length_app. simpl. lia.
Qed.

Lemma lookup_snoc2 (h : heap) (x y z : Value) (t : heap) :
  (h ++ x :: y :: z :: t) !! S (S (length h)) = Some z.
Proof.
  replace (h ++ x :: y :: z :: t) with ((h ++ [x; y]) ++ z :: t)
    by (by rewrite <- app_assoc).
  apply list_lookup_middle. rewrite length_app. simpl. lia.
Qed.

Lemma insert_snoc0 (h : heap) (x v : Value) (t : heap) :
  <[length h := v]> (h ++ x :: t) = h ++ v :: t.
Proof. by rewrite <- (Nat.add_0_r (length h)), insert_app_r. Qed.

Lemma insert_snoc1 (h : heap) (x y v : Value) (t : heap) :
  <[S (length h) := v]> (h ++ x :: y :: t) = h ++ x :: v :: t.
Proof. by rewrite <- (Nat.add_1_r (length h)), insert_app_r. Qed.

Lemma insert_snoc2 (h : heap) (x y z v : Value) (t : heap) :
  <[S (S (length h)) := v]> (h ++ x :: y :: z :: t) = h ++ x :: y :: v :: t.
Proof.
  replace (S (S (length h))) with (length h + 2) by lia.
  by rewrite insert_app_r.
Qed.

Lemma length_snoc (h : heap) (x : Value) : length (h ++ [x]) = S (length h).
Proof. rewrite length_app. simpl. lia. Qed.

Lemma modify_snoc0 (f : Value → Value) (h : heap) (x : Value) (t : heap) :
  modify (length h) f (h ++ x :: t) = Some (h ++ f x :: t).
Proof. unfold modify. by rewrite lookup_snoc0; simpl; rewrite insert_snoc0. Qed.

Lemma modify_snoc1 (f : Value → Value) (h : heap) (x y : Value) (t : heap) :
  modify (S (length h)) f (h ++ x :: y :: t) = Some (h ++ x :: f y :: t).
Proof. unfold modify. by rewrite lookup_snoc1; simpl; rewrite insert_snoc1. Qed.

Lemma modify_snoc2 (f : Value → Value) (h : heap) (x y z : Value) (t : heap) :
  modify (S (S (length h))) f (h ++ x :: y :: z :: t)
  = Some (h ++ x :: y :: f z :: t).
Proof. unfold modify. by rewrite lookup_snoc2; simpl; rewrite insert_snoc2. Qed.

Lemma Add_eq (v other : addr) (h : heap) (nv no : Value) :
  h !! v = Some nv → h !! other = Some no →
  Add v other h
  = Some (length h,
          h ++ [mkValue (data nv + data no)%float 0%float [v; other]
                        "+"%string (fn_Add v other (length h))]).
Proof.
  intros Hv Ho. unfold Add, convertToValue, alloc. rewrite Hv, Ho. simpl.
  by rewrite modify_snoc0.
Qed.

Lemma AddScalar_eq (v : addr) (scalar : float) (h : heap) (nv : Value) :
  h !! v = Some nv →
  AddScalar v scalar h
  = Some (length h,
          h ++ [mkValue (data nv + scalar)%float 0%float [v]
                        "+scalar"%string (fn_AddScalar v (length h))]).
Proof.
  intros Hv. unfold AddScalar, convertToValue, alloc. rewrite Hv. simpl.
  by rewrite modify_snoc0.
Qed.

Lemma Multiply_eq (v other : addr) (h : heap) (nv no : Value) :
  h !! v = Some nv → h !! other = Some no →
  Multiply v other h
  = Some (length h,
          h ++ [mkValue (data nv * data no)%float 0%float [v; other]
                        "*"%string (fn_Multiply v other (length h))]).
Proof.
  intros Hv Ho. unfold Multiply, convertToValue, alloc. rewrite Hv, Ho. simpl.
  by rewrite modify_snoc0.
Qed.

Lemma ReLU_eq (v : addr) (h : heap) (nv : Value) :
  h !! v = Some nv →
  ReLU v h
  = Some (length h,
          h ++ [mkValue (if PrimFloat.ltb 0 (data nv) then data nv else 0%float)
                        0%float [v] "ReLU"%string (fn_ReLU v (length h))]).
Proof.
  intros Hv. unfold ReLU, convertToValue, alloc. rewrite Hv. simpl.
  destruct (PrimFloat.ltb 0 (data nv)); simpl.
  - rewrite modify_snoc0. simpl. by rewrite modify_snoc0.
  - by rewrite modify_snoc0.
Qed.

Lemma Pow_eq (math_Pow : float → float → float) (fmt_f : float → string)
    (v exp : addr) (h : heap) (nv ne : Value) :
  h !! v = Some nv → h !! exp = Some ne →
  Pow math_Pow fmt_f v exp h
  = Some (length h,
          h ++ [mkValue (math_Pow (data nv) (data ne)) 0%float [v; exp]
                        ("**" +:+ fmt_f (data ne))%string
                        (fn_Pow v exp (length h))]).
Proof.
  intros Hv He. unfold Pow, convertToValue, alloc. rewrite Hv, He. simpl.
  by rewrite modify_snoc0.
Qed.

(** ** The constructors keep the store well formed *)

Lemma wf_nil : wf [].
Proof. reflexivity. Qed.

Lemma wf_snoc (h : heap) (nd : Value) :
  wf h → node_ok (length h) nd = true → wf (h ++ [nd]).
Proof.
  intros Hwf Hok. apply wf_intro. intros n x Hl.
  apply lookup_app_Some in Hl as [Hl|[Hge Hl]]; [by eapply wf_lookup|].
  destruct (n - length h) as [|k] eqn:Hk; simpl in Hl; [|done].
  injection Hl as <-. by replace n with (length h) by lia.
Qed.

Lemma convertToValue_wf (d : float) (cs : list addr) (o : string) (h : heap) :
  wf h → Forall (λ c, c < length h) cs → wf (convertToValue d cs o h).2.
Proof.
  intros Hwf Hcs. apply wf_snoc; [done|]. unfold node_ok, closure_ok. simpl.
  rewrite andb_true_r. apply forallb_forall. intros c Hc.
  apply bool_decide_eq_true. rewrite Forall_forall in Hcs.
  apply Hcs. by apply list_elem_of_In.
Qed.

Lemma NewValue_wf (d : float) (h : heap) : wf h → wf (NewValue d h).2.
Proof. intros Hwf. by apply (convertToValue_wf d [] EmptyString). Qed.

Ltac node_ok_snoc :=
  unfold node_ok, closure_ok; simpl;
  repeat (apply andb_true_intro; split);
  try reflexivity;
  apply bool_decide_eq_true; first [done | by eapply lookup_lt_Some].

Lemma Add_wf (v other out : addr) (h h' : heap) :
  wf h → Add v other h = Some (out, h') → wf h'.
Proof.
  intros Hwf H.
  destruct (h !! v) as [nv|] eqn:Hv; [|by unfold Add in H; rewrite Hv in H].
  destruct (h !! other) as [no|] eqn:Ho;
    [|by unfold Add in H; rewrite Hv, Ho in H].
  rewrite (Add_eq v other h nv no Hv Ho) in H. injection H as _ <-.
  apply wf_snoc; [done|]. node_ok_snoc.
Qed.

Lemma AddScalar_wf (v out : addr) (scalar : float) (h h' : heap) :
  wf h → AddScalar v scalar h = Some (out, h') → wf h'.
Proof.
  intros Hwf H.
  destruct (h !! v) as [nv|] eqn:Hv;
    [|by unfold AddScalar in H; rewrite Hv in H].
  rewrite (AddScalar_eq v scalar h nv Hv) in H. injection H as _ <-.
  apply wf_snoc; [done|]. node_ok_snoc.
Qed.

Lemma Multiply_wf (v other out : addr) (h h' : heap) :
  wf h → Multiply v other h = Some (out, h') → wf h'.
Proof.
  intros Hwf H.
  destruct (h !! v) as [nv|] eqn:Hv;
    [|by unfold Multiply in H; rewrite Hv in H].
  destruct (h !! other) as [no|] eqn:Ho;
    [|by unfold Multiply in H; rewrite Hv, Ho in H].
  rewrite (Multiply_eq v other h nv no Hv Ho) in H. injection H as _ <-.
  apply wf_snoc; [done|]. node_ok_snoc.
Qed.

Lemma ReLU_wf (v out : addr) (h h' : heap) :
  wf h → ReLU v h = Some (out, h') → wf h'.
Proof.
  intros Hwf H.
  destruct (h !! v) as [nv|] eqn:Hv; [|by unfold ReLU in H; rewrite Hv in H].
  rewrite (ReLU_eq v h nv Hv) in H. injection H as _ <-.
  apply wf_snoc; [done|]. node_ok_snoc.
Qed.

Lemma Pow_wf (math_Pow : float → float → float) (fmt_f : float → string)
    (v exp out : addr) (h h' : heap) :
  wf h → Pow math_Pow fmt_f v exp h = Some (out, h') → wf h'.
Proof.
  intros Hwf H.
  destruct (h !! v) as [nv|] eqn:Hv; [|by unfold Pow in H; rewrite Hv in H].
  destruct (h !! exp) as [ne|] eqn:He;
    [|by unfold Pow in H; rewrite Hv, He in H].
  rewrite (Pow_eq math_Pow fmt_f v exp h nv ne Hv He) in H. injection H as _ <-.
  apply wf_snoc; [done|]. node_ok_snoc.
Qed.

Lemma MulScalar_wf (v out : addr) (scalar : float) (h h' : heap) :
  wf h → MulScalar v scalar h = Some (out, h') → wf h'.
Proof.
  intros Hwf H. unfold MulScalar in H.
  eapply Multiply_wf; [|exact H].
  by apply (convertToValue_wf scalar [] "scalar"%string).
Qed.

Lemma Neg_wf (v out : addr) (h h' : heap) :
  wf h → Neg v h = Some (out, h') → wf h'.
Proof.
  intros Hwf H. unfold Neg in H.
  eapply Multiply_wf; [|exact H].
  by apply (convertToValue_wf (-1)%float [] "neg"%string).
Qed.

Lemma Sub_wf (v other out : addr) (h h' : heap) :
  wf h → Sub v other h = Some (out, h') → wf h'.
Proof.
  intros Hwf H. unfold Sub in H.
  destruct (Neg other h) as [[n h1]|] eqn:Hn; [|done]. simpl in H.
  eapply Add_wf; [|exact H]. by eapply Neg_wf.
Qed.

Lemma SubScalar_wf (v out : addr) (scalar : float) (h h' : heap) :
  wf h → SubScalar v scalar h = Some (out, h') → wf h'.
Proof.
  intros Hwf H. unfold SubScalar in H.
  eapply Sub_wf; [|exact H].
  by apply (convertToValue_wf scalar [] EmptyString).
Qed.

Lemma PowScalar_wf (math_Pow : float → float → float) (fmt_f : float → string)
    (v out : addr) (scalar : float) (h h' : heap) :
  wf h → PowScalar math_Pow fmt_f v scalar h = Some (out, h') → wf h'.
Proof.
  intros Hwf H. unfold PowScalar in H.
  eapply Pow_wf; [|exact H].
  by apply (convertToValue_wf scalar [] "scalar"%string).
Qed.

Lemma Div_wf (math_Pow : float → float → float) (fmt_f : float → string)
    (v other out : addr) (h h' : heap) :
  wf h → Div math_Pow fmt_f v other h = Some (out, h') → wf h'.
Proof.
  intros Hwf H. unfold Div in H.
  destruct (PowScalar math_Pow fmt_f other (-1) h) as [[p h1]|] eqn:Hp; [|done].
  simpl in H. eapply Multiply_wf; [|exact H]. by eapply PowScalar_wf.
Qed.

Lemma DivScalar_wf (math_Pow : float → float → float) (fmt_f : float → string)
    (v out : addr) (scalar : float) (h h' : heap) :
  wf h → DivScalar math_Pow fmt_f v scalar h = Some (out, h') → wf h'.
Proof.
  intros Hwf H. unfold DivScalar in H.
  eapply Div_wf; [|exact H].
  by apply (convertToValue_wf scalar [] "scalar"%string).
Qed.

(** ** The depth-first traversal *)

Lemma foldM_cons {A S : Type} (f : A → S → option S) (x : A) (l : list A)
    (s : S) :
  foldM f (x :: l) s = f x s ≫= foldM f l.
Proof. reflexivity. Qed.

Lemma dfs_post_nil (h : heap) (vis : gset addr) : dfs_post h [] vis vis [].
Proof.
  split; [set_solver|]. split; [constructor|].
  repeat (split; [set_solver|]).
  intros pre m post c Heq. by destruct pre.
Qed.

Lemma dfs_post_visited (h : heap) (r : addr) (vis : gset addr) :
  r ∈ vis → dfs_post h [r] vis vis [].
Proof.
  intros Hr. split; [set_solver|]. split; [constructor|].
  repeat (split; [set_solver|]).
  intros pre m post c Heq. by destruct pre.
Qed.

Lemma ordered_app (h : heap) (vis vis1 : gset addr) (new1 new2 : list addr) :
  (∀ m, m ∈ vis1 ↔ m ∈ vis ∨ m ∈ new1) →
  ordered h vis new1 → ordered h vis1 new2 → ordered h vis (new1 ++ new2).
Proof.
  intros Hv H1 H2 pre m post c Heq He.
  apply app_eq_inv in Heq as [(k & Hk1 & Hk2)|(k & Hk1 & Hk2)].
  - destruct k as [|x k]; simpl in Hk2.
    + rewrite app_nil_r in Hk1. subst pre.
      destruct (H2 [] m post c (eq_sym Hk2) He) as [Hc|Hc]; [|set_solver].
      apply Hv in Hc as [?|?]; [by left|by right].
    + injection Hk2 as -> ->.
      destruct (H1 pre x k c Hk1 He) as [?|?]; [by left|by right].
  - subst pre. destruct (H2 k m post c Hk2 He) as [Hc|Hc].
    + apply Hv in Hc as [?|?]; [by left|]. right. set_solver.
    + right. set_solver.
Qed.

Lemma dfs_post_cons (h : heap) (r : addr) (rs : list addr)
    (vis vis1 vis2 : gset addr) (new1 new2 : list addr) :
  dfs_post h [r] vis vis1 new1 → dfs_post h rs vis1 vis2 new2 →
  dfs_post h (r :: rs) vis vis2 (new1 ++ new2).
Proof.
  intros (Hv1 & Hd1 & Hf1 & Hr1 & Hp1 & Hc1 & Ho1)
         (Hv2 & Hd2 & Hf2 & Hr2 & Hp2 & Hc2 & Ho2).
  assert (∀ m, m ∈ vis1 → m ∈ vis2) as Hmono by (intros m; rewrite Hv2; tauto).
  split; [|split; [|split; [|split; [|split; [|split]]]]].
  - intros m. rewrite Hv2, Hv1, elem_of_app. tauto.
  - apply NoDup_app. split; [done|]. split; [|done].
    intros m Hm Hm2. apply (Hf2 m Hm2). apply Hv1. by right.
  - intros m [Hm|Hm]%elem_of_app; [by apply Hf1|].
    intros Hvis. apply (Hf2 m Hm). apply Hv1. by left.
  - intros x [-> | Hx]%elem_of_cons; [|by apply Hr2].
    apply Hmono, Hr1. set_solver.
  - intros m [Hm|Hm]%elem_of_app.
    + destruct (Hp1 m Hm) as (x & Hx & Hreach).
      apply list_elem_of_singleton in Hx as ->. exists r. split; [set_solver|done].
    + destruct (Hp2 m Hm) as (x & Hx & Hreach). exists x. split; [set_solver|done].
  - intros m c [Hm|Hm]%elem_of_app He; [|by eapply Hc2].
    apply Hmono. by eapply Hc1.
  - by eapply ordered_app.
Qed.

Lemma dfs_post_node (h : heap) (n : addr) (nd : Value)
    (vis vis' : gset addr) (new : list addr) :
  wf h → h !! n = Some nd → n ∉ vis →
  dfs_post h (children nd) ({[n]} ∪ vis) vis' new →
  dfs_post h [n] vis vis' (new ++ [n]).
Proof.
  intros Hwf Hl Hn (Hv & Hd & Hf & Hr & Hp & Hc & Ho).
  assert (∀ m, m ∈ new → m < n) as Hlt.
  { intros m Hm. destruct (Hp m Hm) as (r & Hr' & Hreach).
    apply (reachable_le h) in Hreach; [|done].
    assert (r < n) by (eapply edge_lt; [done|by exists nd]). lia. }
  split; [|split; [|split; [|split; [|split; [|split]]]]].
  - intros m. rewrite Hv, elem_of_app, list_elem_of_singleton. set_solver.
  - apply NoDup_app. split; [done|]. split; [|apply NoDup_singleton].
    intros m Hm ->%list_elem_of_singleton. apply Hlt in Hm. lia.
  - intros m [Hm | ->%list_elem_of_singleton]%elem_of_app; [|done].
    apply Hf in Hm. set_solver.
  - intros r ->%list_elem_of_singleton. apply Hv. set_solver.
  - intros m [Hm | ->%list_elem_of_singleton]%elem_of_app.
    + destruct (Hp m Hm) as (r & Hr' & Hreach). exists n.
      split; [set_solver|]. eapply rtc_l; [|done]. by exists nd.
    + exists n. split; [set_solver|apply rtc_refl].
  - intros m c [Hm | ->%list_elem_of_singleton]%elem_of_app He; [by eapply Hc|].
    destruct He as (nd' & Hl' & Hcin). rewrite Hl in Hl'. injection Hl' as <-.
    by apply Hr.
  - intros pre m post c Heq He.
    pose proof (edge_lt h m c Hwf He) as Hcm.
    destruct post as [|x post _] using rev_ind.
    + apply app_inj_tail in Heq as [-> ->].
      destruct He as (nd' & Hl' & Hcin). rewrite Hl in Hl'. injection Hl' as <-.
      apply Hr, Hv in Hcin. destruct Hcin as [Hcin|Hcin]; [|by right].
      apply elem_of_union in Hcin as [Hcin|Hcin]; [|by left].
      apply elem_of_singleton in Hcin. lia.
    + rewrite app_comm_cons, app_assoc in Heq.
      apply app_inj_tail in Heq as [-> <-].
      destruct (Ho pre m post c eq_refl He) as [Hcin|Hcin]; [|by right].
      apply elem_of_union in Hcin as [Hcin|Hcin]; [|by left].
      apply elem_of_singleton in Hcin.
      assert (m < n) by (apply Hlt; set_solver). lia.
Qed.

Lemma buildTopo_seen (fuel : nat) (h : heap) (node : addr)
    (vis : gset addr) (topo : list addr) :
  node ∈ vis → buildTopo (S fuel) h node (vis, topo) = Some (vis, topo).
Proof. intros Hin. simpl. by rewrite decide_True. Qed.

Lemma buildTopo_fresh (fuel : nat) (h : heap) (node : addr)
    (vis : gset addr) (topo : list addr) :
  node ∉ vis →
  buildTopo (S fuel) h node (vis, topo)
  = nd ← h !! node;
    st' ← foldM (buildTopo fuel h) (children nd) ({[node]} ∪ vis, topo);
    Some (st'.1, st'.2 ++ [node]).
Proof. intros Hin. simpl. by rewrite decide_False. Qed.

Arguments buildTopo : simpl never.

(** The loop over the operands, given the traversal of one node at the
    same depth budget. *)
Lemma foldM_buildTopo_ok (fuel : nat) (h : heap) :
  (∀ n vis topo, n < fuel → n < length h →
     ∃ vis' new, buildTopo fuel h n (vis, topo) = Some (vis', topo ++ new) ∧
                 dfs_post h [n] vis vis' new) →
  ∀ cs vis topo, Forall (λ c, c < fuel ∧ c < length h) cs →
    ∃ vis' new, foldM (buildTopo fuel h) cs (vis, topo) = Some (vis', topo ++ new) ∧
                dfs_post h cs vis vis' new.
Proof.
  intros IH cs. induction cs as [|c cs IHcs]; intros vis topo Hcs.
  - exists vis, []. rewrite app_nil_r. split; [done|apply dfs_post_nil].
  - apply Forall_cons in Hcs as [[Hc1 Hc2] Hcs].
    destruct (IH c vis topo Hc1 Hc2) as (vis1 & new1 & Hrun1 & Hpost1).
    destruct (IHcs vis1 (topo ++ new1) Hcs) as (vis2 & new2 & Hrun2 & Hpost2).
    exists vis2, (new1 ++ new2). split.
    + rewrite foldM_cons, Hrun1. simpl. rewrite Hrun2. by rewrite app_assoc.
    + by eapply dfs_post_cons.
Qed.

(** On a well-formed store a depth budget above the node's address is
    enough, and the traversal meets its postcondition. *)
Lemma buildTopo_ok (h : heap) : wf h →
  ∀ fuel n vis topo, n < fuel → n < length h →
    ∃ vis' new, buildTopo fuel h n (vis, topo) = Some (vis', topo ++ new) ∧
                dfs_post h [n] vis vis' new.
Proof.
  intros Hwf fuel. induction fuel as [|fuel IH]; intros n vis topo Hf Hn; [lia|].
  destruct (decide (n ∈ vis)) as [Hin|Hnin].
  - exists vis, []. rewrite app_nil_r, buildTopo_seen by done.
    split; [done|by apply dfs_post_visited].
  - rewrite buildTopo_fresh by done.
    apply lookup_lt_is_Some in Hn as Hl. destruct Hl as [nd Hl]. rewrite Hl. simpl.
    assert (Forall (λ c, c < fuel ∧ c < length h) (children nd)) as Hcs.
    { apply Forall_forall. intros c Hc.
      assert (c < n) by (eapply node_ok_children; [by eapply wf_lookup|done]).
      lia. }
    destruct (foldM_buildTopo_ok fuel h IH (children nd) ({[n]} ∪ vis) topo Hcs)
      as (vis' & new & Hrun & Hpost).
    rewrite Hrun. simpl. exists vis', (new ++ [n]). split.
    + by rewrite app_assoc.
    + by eapply dfs_post_node.
Qed.

(** The traversal that [Backward] starts from [root]. *)
Lemma buildTopo_root_ok (h : heap) (root : addr) :
  wf h → root < length h →
  ∃ visited topo,
    buildTopo (S (length h)) h root (∅, []) = Some (visited, topo) ∧
    NoDup topo ∧
    (∀ n, n ∈ topo ↔ reachable h root n) ∧
    (∀ i n c, topo !! i = Some n → edge h n c →
              ∃ j, j < i ∧ topo !! j = Some c).
Proof.
  intros Hwf Hroot.
  destruct (buildTopo_ok h Hwf (S (length h)) root ∅ [] ltac:(lia) Hroot)
    as (vis' & topo & Hrun & (Hv & Hd & Hf & Hr & Hp & Hc & Ho)).
  simpl app in Hrun. exists vis', topo. split; [done|]. split; [done|].
  assert (∀ m, m ∈ vis' ↔ m ∈ topo) as Hvt by (intros m; rewrite Hv; set_solver).
  split; [|].
  - intros n. split.
    + intros Hn. destruct (Hp n Hn) as (r & ->%list_elem_of_singleton & Hreach).
      done.
    + intros Hreach. apply Hvt.
      assert (∀ a b, reachable h a b → a ∈ vis' → b ∈ vis') as Hclosed.
      { clear -Hc Hvt. intros a b Hab.
        induction Hab as [|x y z Hxy _ IH]; [done|].
        intros Hx. apply IH. eapply Hc; [|done]. by apply Hvt. }
      apply (Hclosed root n Hreach). apply Hr. set_solver.
  - intros i n c Hi He.
    pose proof (take_drop_middle topo i n Hi) as Hsplit.
    destruct (Ho (take i topo) n (drop (S i) topo) c (eq_sym Hsplit) He)
      as [Hcin|Hcin]; [set_solver|].
    apply list_elem_of_lookup in Hcin as [j Hj].
    pose proof (lookup_lt_Some _ _ _ Hj) as Hlen.
    rewrite length_take in Hlen.
    exists j. split; [lia|].
    rewrite lookup_take_lt in Hj; [done|lia].
Qed.

(** C6. On a store built by the constructors, the traversal that
    [Backward] runs from [root] returns an order in which every node
    reachable from [root] through the operand relation occurs, nothing else
    does, no node occurs twice, and every operand of a node stands at a
    strictly smaller position than the node. *)
Theorem buildTopo_topological (h : heap) (root : addr) :
  wf h → root < length h →
  ∃ visited topo,
    buildTopo (S (length h)) h root (∅, []) = Some (visited, topo) ∧
    NoDup topo ∧
    (∀ n, n ∈ topo ↔ reachable h root n) ∧
    (∀ i n c, topo !! i = Some n → edge h n c →
              ∃ j, j < i ∧ topo !! j = Some c).
Proof. intros Hwf Hroot. by apply buildTopo_root_ok. Qed.

(** ** The reverse pass *)

Lemma grad_step_length (cs : list addr) (h h' : heap) :
  grad_step cs h h' → length h' = length h.
Proof. intros [He _]. by apply erase_length. Qed.

Lemma grad_step_refl (cs : list addr) (h : heap) : grad_step cs h h.
Proof. by split. Qed.

Lemma grad_step_trans (cs1 cs2 cs : list addr) (h h1 h2 : heap) :
  grad_step cs1 h h1 → grad_step cs2 h1 h2 →
  (∀ q, q ∈ cs1 ∨ q ∈ cs2 → q ∈ cs) → grad_step cs h h2.
Proof.
  intros [He1 Hq1] [He2 Hq2] Hsub. split; [congruence|].
  intros q Hq. rewrite Hq2, Hq1; [done| |]; intros Hin; apply Hq, Hsub; tauto.
Qed.

Lemma add_grad_step (p : addr) (d : float) (h : heap) :
  p < length h → ∃ h', add_grad p d h = Some h' ∧ grad_step [p] h h'.
Proof.
  intros Hp. unfold add_grad.
  destruct (modify_is_Some p (λ nd, set_grad (grad nd + d)%float nd) h Hp)
    as (nd & Hl & Hm).
  eexists. split; [exact Hm|].
  destruct (modify_grad_erase p (λ nd, (grad nd + d)%float) h _ Hm) as [He Hq].
  split; [done|]. intros q Hq'. apply Hq. set_solver.
Qed.

Ltac bind_lookup h p :=
  let x := fresh "x" in
  let Hx := fresh "Hx" in
  destruct (proj2 (lookup_lt_is_Some h p)) as [x Hx];
  [lia | rewrite Hx; simpl].

Ltac bind_add_grad :=
  match goal with
  | |- context [add_grad ?p ?d ?h] =>
      let h' := fresh "h" in
      let He := fresh "He" in
      let Hs := fresh "Hs" in
      destruct (add_grad_step p d h) as (h' & He & Hs);
      [lia | rewrite He; simpl;
             pose proof (grad_step_length _ _ _ Hs)]
  end.

Ltac close_grad_step :=
  eexists; split; [reflexivity|];
  repeat match goal with
         | H1 : grad_step _ ?a ?b, H2 : grad_step _ ?b ?c |- grad_step _ ?a ?c =>
             apply (grad_step_trans _ _ _ a b c H1 H2); set_solver
         | H1 : grad_step _ ?a ?b |- grad_step _ ?a ?b =>
             apply (grad_step_trans _ [] _ a b b H1 (grad_step_refl _ _));
             set_solver
         | |- grad_step _ ?a ?a => apply grad_step_refl
         end.

Section ReversePass.

Variable math_Pow : float -> float -> float.
Variable math_Log : float -> float.

(** A derivative rule of a well-formed node runs without failing and
    writes only gradients of the node's operands. *)
Lemma call_ok (n : addr) (nd : Value) (h : heap) :
  node_ok n nd = true → h !! n = Some nd →
  ∃ h', call math_Pow math_Log (backward nd) h = Some h' ∧
        grad_step (children nd) h h'.
Proof.
  intros Hok Hl. pose proof (lookup_lt_Some _ _ _ Hl) as Hn.
  assert (∀ c, c ∈ children nd → c < n) as Hch
    by (intros c; by apply node_ok_children).
  unfold node_ok in Hok. apply andb_prop in Hok as [_ Hcl].
  unfold closure_ok in Hcl.
  destruct (backward nd) as [|v other out|v out|v other out|v other out|v out];
    simpl; try (apply bool_decide_eq_true in Hcl as [-> Hcs]; rewrite Hcs in *).
  - close_grad_step.
  - assert (v < n) by (apply Hch; set_solver).
    assert (other < n) by (apply Hch; set_solver).
    rewrite Hl. simpl. bind_add_grad. bind_lookup h0 n. bind_add_grad.
    close_grad_step.
  - assert (v < n) by (apply Hch; set_solver).
    rewrite Hl. simpl. bind_add_grad. close_grad_step.
  - assert (v < n) by (apply Hch; set_solver).
    assert (other < n) by (apply Hch; set_solver).
    bind_lookup h other. rewrite Hl. simpl. bind_add_grad.
    bind_lookup h0 v. bind_lookup h0 n. bind_add_grad.
    close_grad_step.
  - assert (v < n) by (apply Hch; set_solver).
    assert (other < n) by (apply Hch; set_solver).
    bind_lookup h v.
    destruct (negb (PrimFloat.eqb (data x) 0)).
    + bind_lookup h other. rewrite Hl. simpl. bind_add_grad.
      bind_lookup h0 v. destruct (PrimFloat.ltb 0 (data x1)).
      * bind_lookup h0 other. bind_lookup h0 n. bind_add_grad.
        close_grad_step.
      * close_grad_step.
    + simpl. rewrite Hx. simpl. destruct (PrimFloat.ltb 0 (data x)).
      * bind_lookup h other. rewrite Hl. simpl. bind_add_grad.
        close_grad_step.
      * close_grad_step.
  - assert (v < n) by (apply Hch; set_solver).
    bind_lookup h v. destruct (PrimFloat.ltb 0 (data x)).
    + rewrite Hl. simpl. bind_add_grad. close_grad_step.
    + close_grad_step.
Qed.

Lemma backward_step_seen (node : addr) (processed : gset addr) (h : heap) :
  node ∈ processed →
  backward_step math_Pow math_Log node (processed, h) = Some (processed, h).
Proof. intros Hin. unfold backward_step. simpl. by rewrite decide_True. Qed.

Lemma backward_step_fresh (node : addr) (processed : gset addr) (h : heap) :
  node ∉ processed →
  backward_step math_Pow math_Log node (processed, h)
  = nd ← h !! node; h' ← call math_Pow math_Log (backward nd) h;
    Some ({[node]} ∪ processed, h').
Proof. intros Hin. unfold backward_step. simpl. by rewrite decide_False. Qed.

(** The reverse loop over any list of valid nodes. *)
Lemma backward_loop_ok (l : list addr) : ∀ (processed : gset addr) (h : heap),
  wf h → Forall (λ m, m < length h) l →
  ∃ processed' h',
    foldM (backward_step math_Pow math_Log) l (processed, h)
      = Some (processed', h') ∧
    erase h' = erase h ∧
    ∀ q, (∀ m, m ∈ l → ¬ edge h m q) → h' !! q = h !! q.
Proof.
  induction l as [|a l IH]; intros processed h Hwf Hl.
  - exists processed, h. split; [reflexivity|]. split; [done|]. by intros.
  - apply Forall_cons in Hl as [Ha Hl]. rewrite foldM_cons.
    destruct (decide (a ∈ processed)) as [Hin|Hnin].
    + rewrite backward_step_seen by done. simpl.
      destruct (IH processed h Hwf Hl) as (p' & h' & Hrun & He & Hq).
      exists p', h'. split; [exact Hrun|]. split; [done|].
      intros q Hno. apply Hq. intros m Hm. apply Hno. set_solver.
    + rewrite backward_step_fresh by done.
      apply lookup_lt_is_Some in Ha as [nd Hnd]. rewrite Hnd. simpl.
      destruct (call_ok a nd h (wf_lookup h a nd Hwf Hnd) Hnd)
        as (h1 & Hcall & He1 & Hq1).
      rewrite Hcall. simpl.
      assert (Forall (λ m, m < length h1) l) as Hl1
        by (by rewrite (erase_length _ _ He1)).
      destruct (IH ({[a]} ∪ processed) h1 (erase_wf h h1 He1 Hwf) Hl1)
        as (p' & h' & Hrun & He & Hq).
      exists p', h'. split; [exact Hrun|]. split; [congruence|].
      intros q Hno. rewrite Hq.
      * apply Hq1. intros Hc. apply (Hno a); [set_solver|]. by exists nd.
      * intros m Hm He'. apply (Hno m); [set_solver|].
        by apply (erase_edge h1 h).
Qed.

(** What one differentiation pass does to a store built by the
    constructors. *)
Lemma Backward_ok (h : heap) (root : addr) :
  wf h → root < length h →
  ∃ nd h', h !! root = Some nd ∧
    Backward math_Pow math_Log root h = Some h' ∧
    erase h' = erase h ∧
    h' !! root = Some (set_grad 1%float nd) ∧
    ∀ q, ¬ reachable h root q → h' !! q = h !! q.
Proof.
  intros Hwf Hroot. unfold Backward.
  destruct (modify_is_Some root (set_grad 1%float) h Hroot) as (nd & Hnd & Hmod).
  rewrite Hmod. simpl.
  destruct (modify_grad_erase root (λ _, 1%float) h _ Hmod) as [He1 Hq1].
  set (h1 := <[root := set_grad 1%float nd]> h) in *.
  assert (wf h1) as Hwf1 by (by apply (erase_wf h)).
  assert (length h1 = length h) as Hlen by (by apply erase_length).
  assert (root < length h1) as Hroot1 by lia.
  destruct (buildTopo_root_ok h1 root Hwf1 Hroot1)
    as (vis & topo & Hrun & _ & Hreach & _).
  rewrite Hrun. simpl.
  assert (Forall (λ m, m < length h1) (reverse topo)) as Hvalid.
  { apply Forall_forall. intros m Hm. rewrite elem_of_reverse in Hm. apply Hreach in Hm.
    apply (reachable_le h1) in Hm; [lia|done]. }
  destruct (backward_loop_ok (reverse topo) ∅ h1 Hwf1 Hvalid)
    as (p' & h' & Hloop & He & Hq).
  rewrite Hloop. simpl. exists nd, h'. split; [done|]. split; [done|].
  split; [congruence|]. split.
  - rewrite Hq.
    + subst h1. by apply list_lookup_insert_eq.
    + intros m Hm Hedge. rewrite elem_of_reverse in Hm. apply Hreach in Hm.
      apply (reachable_le h1) in Hm; [|done].
      apply (edge_lt h1) in Hedge; [lia|done].
  - intros q Hnr. rewrite Hq.
    + apply Hq1. intros ->. apply Hnr. apply rtc_refl.
    + intros m Hm Hedge. rewrite elem_of_reverse in Hm. apply Hreach in Hm.
      apply Hnr. apply (erase_reachable h1 h); [done|].
      eapply rtc_r; [exact Hm|exact Hedge].
Qed.

(** C7. A differentiation pass from [root] returns, and every node that
    [root] does not reach through the operand relation is afterwards the
    node it was: same value, gradient, operator tag, operands and rule. *)
Theorem Backward_frame (h : heap) (root : addr) :
  wf h → root < length h →
  ∃ h', Backward math_Pow math_Log root h = Some h' ∧
        length h' = length h ∧
        ∀ q, ¬ reachable h root q → h' !! q = h !! q.
Proof.
  intros Hwf Hroot.
  destruct (Backward_ok h root Hwf Hroot) as (nd & h' & _ & Hrun & He & _ & Hq).
  exists h'. split; [done|]. split; [by apply erase_length|done].
Qed.

(** C10. A differentiation pass from [root] returns with the gradient of
    [root] equal to 1, whatever it was before; the store it leaves is again
    well formed and of the same size, so the same holds for the next pass. *)
Theorem Backward_root_grad (h : heap) (root : addr) :
  wf h → root < length h →
  ∃ h', Backward math_Pow math_Log root h = Some h' ∧
        grad <$> h' !! root = Some 1%float ∧
        wf h' ∧ length h' = length h.
Proof.
  intros Hwf Hroot.
  destruct (Backward_ok h root Hwf Hroot) as (nd & h' & _ & Hrun & He & Hr & _).
  exists h'. split; [done|]. split; [by rewrite Hr|].
  split; [by apply (erase_wf h)|by apply erase_length].
Qed.

End ReversePass.

(** ** The invariant holds of every store a client can build *)

Lemma Backward_wf (math_Pow : float → float → float)
    (math_Log : float → float) (root : addr) (h h' : heap) :
  wf h → Backward math_Pow math_Log root h = Some h' → wf h'.
Proof.
  intros Hwf H.
  assert (root < length h) as Hroot.
  { unfold Backward, modify in H.
    destruct (h !! root) as [nd|] eqn:Hl; [|done]. by eapply lookup_lt_Some. }
  destruct (Backward_ok math_Pow math_Log h root Hwf Hroot)
    as (nd & h'' & _ & Hrun & He & _).
  rewrite Hrun in H. injection H as <-. by apply (erase_wf h).
Qed.

Lemma built_wf (math_Pow : float → float → float) (math_Log : float → float)
    (fmt_f : float → string) (h : heap) :
  built math_Pow math_Log fmt_f h → wf h.
Proof.
  induction 1 as [|d h _ IH|v o out h h' _ IH H|v s out h h' _ IH H
                 |v o out h h' _ IH H|v s out h h' _ IH H|v e out h h' _ IH H
                 |v s out h h' _ IH H|v out h h' _ IH H|v out h h' _ IH H
                 |v o out h h' _ IH H|v s out h h' _ IH H|v o out h h' _ IH H
                 |v s out h h' _ IH H|root h h' _ IH H|p g h h' _ IH H].
  - apply wf_nil.
  - by apply NewValue_wf.
  - by eapply Add_wf.
  - by eapply AddScalar_wf.
  - by eapply Multiply_wf.
  - by eapply MulScalar_wf.
  - by eapply Pow_wf.
  - by eapply PowScalar_wf.
  - by eapply ReLU_wf.
  - by eapply Neg_wf.
  - by eapply Sub_wf.
  - by eapply SubScalar_wf.
  - by eapply Div_wf.
  - by eapply DivScalar_wf.
  - by eapply Backward_wf.
  - destruct (modify_grad_erase p (λ _, g) h h' H) as [He _].
    by apply (erase_wf h).
Qed.

(** ** A root whose operands are leaves *)

Lemma add_grad_erase (p : addr) (d : float) (h h' : heap) :
  add_grad p d h = Some h' → erase h' = erase h.
Proof.
  intros H. by destruct (modify_grad_erase p (λ nd, (grad nd + d)%float) h h' H).
Qed.

Ltac inv_binds :=
  repeat match goal with
         | H : (?m ≫= _) = Some _ |- _ =>
             let E := fresh "E" in
             destruct m eqn:E; simpl in H; [|discriminate H]
         | H : (if ?b then _ else _) = Some _ |- _ =>
             destruct b eqn:?; simpl in H
         | H : (if ?b then _ else _) ≫= _ = Some _ |- _ =>
             destruct b eqn:?; simpl in H
         | H : add_grad _ _ _ = Some _ |- _ => apply add_grad_erase in H
         | H : Some _ = Some _ |- _ => injection H as <-
         end.

Lemma call_erase (math_Pow : float → float → float) (math_Log : float → float)
    (f : closure) (h h' : heap) :
  call math_Pow math_Log f h = Some h' → erase h' = erase h.
Proof. destruct f; simpl; intros H; inv_binds; congruence. Qed.

Lemma leaf_at_erase (h h' : heap) (c : addr) :
  erase h' = erase h → leaf_at h c → leaf_at h' c.
Proof.
  intros He (ndc & Hl & Hc & Hb).
  destruct (erase_lookup h h' c ndc He Hl) as (nd' & Hl' & Heq).
  apply set_grad_0_inv in Heq as (_ & Hc' & _ & Hb').
  exists nd'. split; [done|]. split; congruence.
Qed.

(** The operand loop of [buildTopo] when every operand is a leaf. *)
Lemma foldM_buildTopo_leaves (fuel : nat) (h : heap) (cs : list addr) :
  Forall (leaf_at h) cs →
  ∀ (vis : gset addr) (topo : list addr),
  ∃ vis' new,
    foldM (buildTopo (S fuel) h) cs (vis, topo) = Some (vis', topo ++ new) ∧
    Forall (leaf_at h) new.
Proof.
  induction 1 as [|c cs Hc Hcs IH]; intros vis topo.
  - exists vis, []. by rewrite app_nil_r.
  - rewrite foldM_cons. destruct (decide (c ∈ vis)) as [Hin|Hnin].
    + rewrite buildTopo_seen by done. simpl. apply IH.
    + rewrite buildTopo_fresh by done.
      destruct Hc as (ndc & Hl & Hch & Hb). rewrite Hl. simpl. rewrite Hch.
      simpl. destruct (IH ({[c]} ∪ vis) (topo ++ [c])) as (vis' & new & Hrun & Hnew).
      exists vis', (c :: new). split.
      * rewrite Hrun. f_equal. f_equal. by rewrite <- app_assoc.
      * constructor; [|done]. by exists ndc.
Qed.

Section LeafOperands.

Variable math_Pow : float -> float -> float.
Variable math_Log : float -> float.

(** The reverse loop over leaves does nothing. *)
Lemma backward_loop_leaves (h : heap) (l : list addr) :
  Forall (leaf_at h) l →
  ∀ processed : gset addr,
  ∃ processed',
    foldM (backward_step math_Pow math_Log) l (processed, h)
    = Some (processed', h).
Proof.
  induction 1 as [|c l Hc Hl IH]; intros processed.
  - by exists processed.
  - rewrite foldM_cons. destruct (decide (c ∈ processed)) as [Hin|Hnin].
    + rewrite backward_step_seen by done. simpl. apply IH.
    + rewrite backward_step_fresh by done.
      destruct Hc as (ndc & Hlc & _ & Hb). rewrite Hlc. simpl. rewrite Hb.
      simpl. apply IH.
Qed.

(** Differentiating a root all of whose operands are leaves is: reseed the
    root, then run the root's derivative rule. *)
Lemma Backward_leaf_operands (h : heap) (root : addr) (nd : Value) :
  h !! root = Some nd →
  Forall (λ c, c ≠ root ∧ leaf_at h c) (children nd) →
  Backward math_Pow math_Log root h
  = call math_Pow math_Log (backward nd) (<[root := set_grad 1%float nd]> h).
Proof.
  intros Hroot Hcs. unfold Backward, modify. rewrite Hroot. simpl.
  set (h1 := <[root := set_grad 1%float nd]> h).
  pose proof (lookup_lt_Some _ _ _ Hroot) as Hlt.
  assert (h1 !! root = Some (set_grad 1%float nd)) as Hroot1
    by (by apply list_lookup_insert_eq).
  assert (Forall (leaf_at h1) (children nd)) as Hcs1.
  { eapply Forall_impl; [exact Hcs|]. intros c [Hne (ndc & Hl & Hch & Hb)].
    exists ndc. split; [|done]. subst h1. by rewrite list_lookup_insert_ne. }
  rewrite buildTopo_fresh by set_solver. rewrite Hroot1. simpl.
  assert (∃ k, length h1 = S k) as [k Hk].
  { subst h1. rewrite length_insert. destruct (length h); [lia|by eexists]. }
  rewrite Hk.
  destruct (foldM_buildTopo_leaves k h1 (children nd) Hcs1 ({[root]} ∪ ∅) [])
    as (vis' & new & Hrun & Hnew).
  rewrite Hrun. simpl. rewrite reverse_snoc, foldM_cons.
  rewrite backward_step_fresh by set_solver. rewrite Hroot1. simpl.
  destruct (call math_Pow math_Log (backward nd) h1) as [h2|] eqn:Hcall; [|done].
  simpl. apply call_erase in Hcall as He.
  assert (Forall (leaf_at h2) (reverse new)) as Hnew2.
  { apply Forall_reverse. eapply Forall_impl; [exact Hnew|].
    intros c. by apply leaf_at_erase. }
  destruct (backward_loop_leaves h2 (reverse new) Hnew2 ({[root]} ∪ ∅))
    as (p' & Hloop).
  by rewrite Hloop.
Qed.

End LeafOperands.

(** ** Evaluating a rule on the last nodes of a store *)

Ltac heap_eval :=
  repeat first
    [ progress unfold add_grad
    | rewrite lookup_snoc0 | rewrite lookup_snoc1 | rewrite lookup_snoc2
    | rewrite modify_snoc0 | rewrite modify_snoc1 | rewrite modify_snoc2
    | rewrite insert_snoc0 | rewrite insert_snoc1 | rewrite insert_snoc2
    | progress simpl ].

Section Claims.

Variable math_Pow : float -> float -> float.
Variable math_Log : float -> float.
Variable fmt_f : float -> string.

(** A leaf with any gradient [g] already accumulated, used twice by one
    [Add]: the pass adds the root's gradient to it twice. *)
Lemma Backward_add_self (h : heap) (x g : float) :
  let A := mkValue x g [] EmptyString fn_nop in
  let a := length h in
  ∃ c h2 h3,
    Add a a (h ++ [A]) = Some (c, h2) ∧
    Backward math_Pow math_Log c h2 = Some h3 ∧
    grad <$> h3 !! a = Some (g + 1 + 1)%float.
Proof.
  intros A a. subst a.
  rewrite (Add_eq _ _ _ A A) by apply lookup_snoc0.
  rewrite length_snoc, <- app_assoc. simpl.
  eexists _, _, _. split; [reflexivity|].
  erewrite Backward_leaf_operands; [|apply lookup_snoc1|].
  - heap_eval. split; [reflexivity|]. by heap_eval.
  - simpl. repeat constructor; try lia; exists A; by rewrite lookup_snoc0.
Qed.

(** C2. For every scalar [x] and every store, a fresh leaf [a] used as both
    operands of [c = Add a a] has gradient 2 after [Backward c]: the two
    uses of [a] each add the root's gradient to its accumulator. *)
Theorem sharing_add_self (h : heap) (x : float) :
  let a := (NewValue x h).1 in
  let h1 := (NewValue x h).2 in
  ∃ c h2 h3,
    Add a a h1 = Some (c, h2) ∧
    Backward math_Pow math_Log c h2 = Some h3 ∧
    grad <$> h3 !! a = Some 2%float.
Proof.
  intros a h1.
  destruct (Backward_add_self h x 0%float) as (c & h2 & h3 & HA & HB & Hg).
  exists c, h2, h3. split; [exact HA|]. split; [exact HB|]. exact Hg.
Qed.

(** One pass from [c = Add a b] over two leaves, whatever the gradients
    in the store are beforehand. *)
Lemma Backward_add_leaves (h : heap) (x y ga gb gc : float) :
  let a := length h in
  let b := S (length h) in
  let c := S (S (length h)) in
  let A g := mkValue x g [] EmptyString fn_nop in
  let B g := mkValue y g [] EmptyString fn_nop in
  let C g := mkValue (x + y)%float g [a; b] "+"%string (fn_Add a b c) in
  Backward math_Pow math_Log c (h ++ [A ga; B gb; C gc])
  = Some (h ++ [A (ga + 1)%float; B (gb + 1)%float; C 1%float]).
Proof.
  intros a b c A B C. subst a b c.
  erewrite Backward_leaf_operands; [|apply lookup_snoc2|].
  - by heap_eval.
  - simpl. repeat constructor; try lia.
    + exists (A ga). by rewrite lookup_snoc0.
    + exists (B gb). by rewrite lookup_snoc1.
Qed.

(** An instance of differentiating twice: for [c = Add a b] over two fresh
    leaves, one [Backward c] leaves gradient 1 on [a], [b] and [c]; a
    second [Backward c] with no reset in between leaves 2 on [a] and [b],
    and 1 on the reseeded root. *)
Lemma Backward_twice_add_leaves (h : heap) (x y : float) :
  let a := (NewValue x h).1 in
  let h1 := (NewValue x h).2 in
  let b := (NewValue y h1).1 in
  let h2 := (NewValue y h1).2 in
  ∃ c h3 h4 h5,
    Add a b h2 = Some (c, h3) ∧
    Backward math_Pow math_Log c h3 = Some h4 ∧
    Backward math_Pow math_Log c h4 = Some h5 ∧
    grad <$> h4 !! a = Some 1%float ∧
    grad <$> h4 !! b = Some 1%float ∧
    grad <$> h4 !! c = Some 1%float ∧
    grad <$> h5 !! a = Some 2%float ∧
    grad <$> h5 !! b = Some 2%float ∧
    grad <$> h5 !! c = Some 1%float.
Proof.
  simpl. rewrite length_snoc, <- app_assoc. simpl.
  erewrite Add_eq; [|apply lookup_snoc0|apply lookup_snoc1].
  rewrite length_app, <- app_assoc. simpl.
  replace (length h + 2) with (S (S (length h))) by lia.
  eexists _, _, _, _. split; [reflexivity|].
  split; [apply Backward_add_leaves|].
  split; [apply Backward_add_leaves|].
  rewrite !lookup_snoc0, !lookup_snoc1, !lookup_snoc2. by repeat split.
Qed.

End Claims.

Section Rules.

Variable math_Pow : float -> float -> float.
Variable math_Log : float -> float.
Variable fmt_f : float -> string.

Lemma add_grad_Some (p : addr) (d : float) (h : heap) (nd : Value) :
  h !! p = Some nd →
  add_grad p d h = Some (<[p := set_grad (grad nd + d)%float nd]> h).
Proof. intros Hp. unfold add_grad, modify. by rewrite Hp. Qed.

(** *** ReLU *)

Lemma ReLU_node (h : heap) (a : addr) (na : Value) :
  h !! a = Some na →
  ReLU a h
  = Some (length h,
          h ++ [mkValue (float_max 0 (data na)) 0%float [a] "ReLU"%string
                        (fn_ReLU a (length h))]).
Proof. intros Ha. by rewrite (ReLU_eq a h na Ha). Qed.

Lemma ReLU_backward (h : heap) (a out : addr) (ma mo : Value) :
  h !! a = Some ma → h !! out = Some mo →
  call math_Pow math_Log (fn_ReLU a out) h
  = Some (if PrimFloat.ltb 0 (data ma)
          then <[a := set_grad (grad ma + grad mo)%float ma]> h
          else h).
Proof.
  intros Ha Ho. simpl. rewrite Ha. simpl.
  destruct (PrimFloat.ltb 0 (data ma)); [|done].
  rewrite Ho. simpl. by rewrite (add_grad_Some a _ h ma Ha).
Qed.

Lemma ReLU_at_zero (h : heap) :
  let a := (NewValue 0%float h).1 in
  let h1 := (NewValue 0%float h).2 in
  ∃ r h2 h3,
    ReLU a h1 = Some (r, h2) ∧
    Backward math_Pow math_Log r h2 = Some h3 ∧
    grad <$> h3 !! a = Some 0%float.
Proof.
  simpl. erewrite ReLU_eq by apply lookup_snoc0.
  rewrite length_snoc, <- app_assoc. simpl.
  eexists _, _, _. split; [reflexivity|].
  erewrite Backward_leaf_operands; [|apply lookup_snoc1|].
  - heap_eval. split; [reflexivity|]. by heap_eval.
  - simpl. repeat constructor; try lia. eexists. by rewrite lookup_snoc0.
Qed.

(** C4. For every node [a] of a store, [ReLU a] returns a fresh node whose
    value is [max(0, a.value)] (the maximum by comparison: 0 when
    [a.value] is not above 0), whose only operand is [a] and whose rule is
    the [ReLU] literal; that rule, run on any later store, adds the
    gradient of the output to the gradient of [a] exactly when [a.value > 0]
    and otherwise leaves the store as it is.  For a fresh leaf of value 0,
    [Backward (ReLU a)] leaves gradient 0 on [a]. *)
Theorem ReLU_rule :
  (∀ (h : heap) (a : addr) (na : Value),
     h !! a = Some na →
     ReLU a h
     = Some (length h,
             h ++ [mkValue (float_max 0 (data na)) 0%float [a] "ReLU"%string
                           (fn_ReLU a (length h))]) ∧
     ∀ (h' : heap) (ma mo : Value),
       h' !! a = Some ma → h' !! length h = Some mo →
       call math_Pow math_Log (fn_ReLU a (length h)) h'
       = Some (if PrimFloat.ltb 0 (data ma)
               then <[a := set_grad (grad ma + grad mo)%float ma]> h'
               else h')) ∧
  (∀ h : heap,
     let a := (NewValue 0%float h).1 in
     let h1 := (NewValue 0%float h).2 in
     ∃ r h2 h3,
       ReLU a h1 = Some (r, h2) ∧
       Backward math_Pow math_Log r h2 = Some h3 ∧
       grad <$> h3 !! a = Some 0%float).
Proof.
  split.
  - intros h a na Ha. split; [by apply ReLU_node|].
    intros h' ma mo Hma Hmo. by apply ReLU_backward.
  - apply ReLU_at_zero.
Qed.

(** *** Pow *)

Lemma Pow_backward (h : heap) (a b out : addr) (ma mb mo : Value) :
  h !! a = Some ma → h !! b = Some mb → h !! out = Some mo → out ≠ a →
  let g := grad mo in
  let h1 :=
    if negb (PrimFloat.eqb (data ma) 0)
    then <[a := set_grad
                  (grad ma + data mb * math_Pow (data ma) (data mb - 1) * g)%float
                  ma]> h
    else h in
  ∃ mb1, h1 !! b = Some mb1 ∧ (a ≠ b → mb1 = mb) ∧
    call math_Pow math_Log (fn_Pow a b out) h
    = Some (if PrimFloat.ltb 0 (data ma)
            then <[b := set_grad
                          (grad mb1 + math_Log (data ma) * data mo * g)%float
                          mb1]> h1
            else h1).
Proof.
  intros Ha Hb Ho Hne g h1.
  pose proof (lookup_lt_Some _ _ _ Ha) as Hla.
  pose proof (lookup_lt_Some _ _ _ Hb) as Hlb.
  assert (length h1 = length h) as Hlen
    by (subst h1; destruct (negb _); [apply length_insert|done]).
  assert (is_Some (h1 !! b)) as [mb1 Hb1]
    by (apply lookup_lt_is_Some; lia).
  assert (h1 !! out = Some mo) as Ho1.
  { subst h1. destruct (negb _); [|done]. by rewrite list_lookup_insert_ne. }
  assert (∃ ma1, h1 !! a = Some ma1 ∧ data ma1 = data ma) as (ma1 & Ha1 & Hd).
  { subst h1. destruct (negb _); [|by exists ma].
    eexists. split; [by apply list_lookup_insert_eq|done]. }
  exists mb1. split; [done|]. split.
  { intros Hab. subst h1. destruct (negb _); [|congruence].
    rewrite list_lookup_insert_ne in Hb1 by done. congruence. }
  assert (call math_Pow math_Log (fn_Pow a b out) h
          = (nv1 ← h1 !! a;
             if PrimFloat.ltb 0 (data nv1)
             then ne1 ← h1 !! b; no1 ← h1 !! out;
                  add_grad b (math_Log (data nv1) * data no1 * grad no1)%float h1
             else Some h1)) as ->.
  { simpl. rewrite Ha. simpl. subst h1.
    destruct (negb (PrimFloat.eqb (data ma) 0)); [|done].
    rewrite Hb, Ho. simpl. by rewrite (add_grad_Some a _ h ma Ha). }
  rewrite Ha1. simpl. rewrite Hd.
  destruct (PrimFloat.ltb 0 (data ma)); [|done].
  rewrite Hb1, Ho1. simpl. by rewrite (add_grad_Some b _ h1 mb1 Hb1).
Qed.

Lemma Pow_negative_base (h : heap) :
  math_Pow (-4)%float 1%float = (-4)%float →
  let a := (NewValue (-4)%float h).1 in
  let h1 := (NewValue (-4)%float h).2 in
  ∃ p h2 h3 ne,
    PowScalar math_Pow fmt_f a 2%float h1 = Some (p, h2) ∧
    Backward math_Pow math_Log p h2 = Some h3 ∧
    grad <$> h3 !! a = Some (-8)%float ∧
    h2 !! S a = Some ne ∧ children ne = [] ∧ data ne = 2%float ∧
    children <$> h2 !! p = Some [a; S a] ∧
    h3 !! S a = Some ne.
Proof.
  intros Hpow. simpl. unfold PowScalar, convertToValue, alloc.
  rewrite length_snoc, <- app_assoc. simpl.
  erewrite Pow_eq; [|apply lookup_snoc0|apply lookup_snoc1].
  rewrite length_app, <- app_assoc. simpl.
  replace (length h + 2) with (S (S (length h))) by lia.
  eexists _, _, _, _. split; [reflexivity|].
  erewrite Backward_leaf_operands; [|apply lookup_snoc2|].
  - heap_eval.
    replace (2 - 1)%float with 1%float by reflexivity.
    rewrite Hpow. heap_eval.
    split; [reflexivity|]. heap_eval.
    split; [reflexivity|]. split; [reflexivity|]. by repeat split.
  - simpl. repeat constructor; try lia.
    + eexists. by rewrite lookup_snoc0.
    + eexists. by rewrite lookup_snoc1.
Qed.

(** C3. [math.Pow] documents [Pow(x, 1) = x] for any [x]; the instance at
    [-4] is assumed.  For nodes [a] and [b] of a store, [Pow a b] returns a
    fresh node of value [a.value ^ b.value] with operands [a], [b] and the
    [Pow] literal as rule.  Run on any later store with output gradient
    [g], that rule never fails; it adds [b.value * a.value^(b.value-1) * g]
    to the gradient of [a] exactly when [a.value ≠ 0], and then adds
    [ln(a.value) * out.value * g] to the gradient of [b] exactly when
    [a.value > 0] (to the gradient just written when [b] is [a] itself);
    otherwise the term is skipped.  For a fresh leaf of value [-4],
    [Backward (PowScalar a 2)] leaves gradient [-8] on [a] and the exponent
    node as it was. *)
Theorem Pow_rule :
  math_Pow (-4)%float 1%float = (-4)%float →
  (∀ (h : heap) (a b : addr) (na nb : Value),
     h !! a = Some na → h !! b = Some nb →
     Pow math_Pow fmt_f a b h
     = Some (length h,
             h ++ [mkValue (math_Pow (data na) (data nb)) 0%float [a; b]
                           ("**" +:+ fmt_f (data nb))%string
                           (fn_Pow a b (length h))]) ∧
     ∀ (h' : heap) (ma mb mo : Value),
       h' !! a = Some ma → h' !! b = Some mb → h' !! length h = Some mo →
       let g := grad mo in
       let h1 :=
         if negb (PrimFloat.eqb (data ma) 0)
         then <[a := set_grad
                       (grad ma
                        + data mb * math_Pow (data ma) (data mb - 1) * g)%float
                       ma]> h'
         else h' in
       ∃ mb1, h1 !! b = Some mb1 ∧ (a ≠ b → mb1 = mb) ∧
         call math_Pow math_Log (fn_Pow a b (length h)) h'
         = Some (if PrimFloat.ltb 0 (data ma)
                 then <[b := set_grad
                               (grad mb1
                                + math_Log (data ma) * data mo * g)%float
                               mb1]> h1
                 else h1)) ∧
  (∀ h : heap,
     let a := (NewValue (-4)%float h).1 in
     let h1 := (NewValue (-4)%float h).2 in
     ∃ p h2 h3 ne,
       PowScalar math_Pow fmt_f a 2%float h1 = Some (p, h2) ∧
       Backward math_Pow math_Log p h2 = Some h3 ∧
       grad <$> h3 !! a = Some (-8)%float ∧
       h2 !! S a = Some ne ∧ children ne = [] ∧ data ne = 2%float ∧
       children <$> h2 !! p = Some [a; S a] ∧
       h3 !! S a = Some ne).
Proof.
  intros Hpow. split.
  - intros h a b na nb Ha Hb. split; [by apply Pow_eq|].
    intros h' ma mb mo Hma Hmb Hmo.
    apply Pow_backward; [done..|].
    apply lookup_lt_Some in Ha. lia.
  - intros h. by apply Pow_negative_base.
Qed.

(** *** Div *)

(** C8. [math.Pow] documents [Pow(±0, y) = ±Inf] for [y] an odd integer
    below 0; the instances at [y = -1] are assumed.  For nodes [a] and [b]
    of a store with [b.value] a zero of either sign, [Div a b] returns: it
    is [Multiply a (Pow b k)] for a fresh operand-less node [k] of value
    [-1], it appends exactly these three nodes, and the value of the [Pow]
    node is an infinity. *)
Theorem Div_by_zero (h : heap) (a b : addr) (na nb : Value) :
  math_Pow 0%float (-1)%float = infinity →
  math_Pow (-0)%float (-1)%float = neg_infinity →
  h !! a = Some na → h !! b = Some nb →
  data nb = 0%float ∨ data nb = (-0)%float →
  let k := length h in
  let p := S k in
  let out := S p in
  let K := mkValue (-1)%float 0%float [] "scalar"%string fn_nop in
  let P := mkValue (math_Pow (data nb) (-1)%float) 0%float [b; k]
                   ("**" +:+ fmt_f (-1)%float)%string (fn_Pow b k p) in
  let M := mkValue (data na * math_Pow (data nb) (-1)%float)%float 0%float
                   [a; p] "*"%string (fn_Multiply a p out) in
  Div math_Pow fmt_f a b h
  = (r ← Pow math_Pow fmt_f b k (h ++ [K]); Multiply a r.1 r.2) ∧
  Div math_Pow fmt_f a b h = Some (out, h ++ [K; P; M]) ∧
  PrimFloat.is_infinity (data P) = true.
Proof.
  intros Hp0 Hn0 Ha Hb Hz k p out K P M.
  assert (Pow math_Pow fmt_f b k (h ++ [K]) = Some (p, h ++ [K; P])) as HP.
  { rewrite (Pow_eq math_Pow fmt_f b k (h ++ [K]) nb K)
      by first [by apply lookup_app_l_Some | apply lookup_snoc0].
    by rewrite length_snoc, <- app_assoc. }
  assert (Multiply a p (h ++ [K; P]) = Some (out, h ++ [K; P; M])) as HM.
  { rewrite (Multiply_eq a p _ na P).
    - rewrite length_app, <- app_assoc. simpl.
      by replace (length h + 2) with out by (subst out p k; lia).
    - by apply lookup_app_l_Some.
    - apply lookup_snoc1. }
  assert (Div math_Pow fmt_f a b h
          = (r ← Pow math_Pow fmt_f b k (h ++ [K]); Multiply a r.1 r.2)) as HD.
  { unfold Div, PowScalar, convertToValue, alloc. fold k K.
    by destruct (Pow math_Pow fmt_f b k (h ++ [K])) as [[??]|]. }
  split; [exact HD|]. split.
  - rewrite HD, HP. exact HM.
  - simpl. by destruct Hz as [-> | ->]; [rewrite Hp0|rewrite Hn0].
Qed.

End Rules.

(** ** The leaf constructor *)

(** C9 (as the code has it). [NewValue x] returns a fresh node with value
    [x], gradient 0, no operands, the empty operator tag and the no-op
    rule; the nodes already in the store stay as they are. *)
Theorem NewValue_post (x : float) (h : heap) :
  (NewValue x h).1 = length h ∧
  (NewValue x h).2 !! (NewValue x h).1
    = Some (mkValue x 0%float [] EmptyString fn_nop) ∧
  ∀ p nd, h !! p = Some nd → (NewValue x h).2 !! p = Some nd.
Proof.
  unfold NewValue, alloc. simpl. split; [done|]. split.
  - apply lookup_snoc0.
  - intros p nd Hl. by apply lookup_app_l_Some.
Qed.

(** C9 as stated fails: the tag of a fresh leaf is not the string leaf. *)
Lemma NewValue_op_not_leaf :
  op <$> ((NewValue 1%float []).2 !! (NewValue 1%float []).1)
    ≠ Some "leaf"%string.
Proof. vm_compute. discriminate. Qed.

(** ** The cross-check scenario *)

(** C1 (as the code has it). In the scenario of [TestSanityCheck],
    [Backward y] returns with [y.value = -20] and [a.gradient = 46]. *)
Theorem sanity_check_result (math_Pow : float → float → float)
    (math_Log : float → float) :
  sanity_check math_Pow math_Log = Some ((-20)%float, 46%float).
Proof. vm_compute. reflexivity. Qed.

(** C1 as stated fails: whatever the math library does, the value of [y]
    in the scenario is not 3. *)
Lemma sanity_check_value_not_3 :
  ¬ ∃ (math_Pow : float → float → float) (math_Log : float → float) g,
      sanity_check math_Pow math_Log = Some (3%float, g).
Proof.
  intros (P & L & g & H).
  apply (f_equal (λ o, match o with
                       | Some (y, _) => PrimFloat.ltb y 0
                       | None => false
                       end)) in H.
  vm_compute in H. discriminate.
Qed.

(** ** Differentiating twice *)

Lemma chain_twice_result (math_Pow : float → float → float)
    (math_Log : float → float) :
  chain_twice math_Pow math_Log = Some (1%float, 3%float).
Proof. vm_compute. reflexivity. Qed.

(** C5 as stated fails: on the chain [r = (a + 1) + 1] the gradient of
    [a] after two passes is not twice its gradient after one. *)
Lemma chain_twice_not_doubled :
  ¬ ∃ (math_Pow : float → float → float) (math_Log : float → float) g1 g2,
      chain_twice math_Pow math_Log = Some (g1, g2) ∧
      (g2 = (2 * g1)%float ∨ g2 = (g1 + g1)%float).
Proof.
  intros (P & L & g1 & g2 & H & Hd). rewrite chain_twice_result in H.
  pose proof (f_equal (λ o, match o with
                            | Some (g, _) => g
                            | None => 0%float
                            end) H) as H1.
  pose proof (f_equal (λ o, match o with
                            | Some (_, g) => g
                            | None => 0%float
                            end) H) as H2.
  simpl in H1, H2. rewrite <- H1, <- H2 in Hd.
  destruct Hd as [Hd|Hd];
    apply (f_equal (λ z, PrimFloat.eqb z 3)) in Hd; vm_compute in Hd;
    discriminate.
Qed.

(** ** Instances on concrete stores *)

Lemma diamond_built : diamond_prog = Some (2, diamond).
Proof. vm_compute. reflexivity. Qed.

Lemma buildTopo_topological_witness :
  wf diamond ∧ 2 < length diamond ∧
  ∃ visited topo,
    buildTopo (S (length diamond)) diamond 2 (∅, []) = Some (visited, topo) ∧
    NoDup topo ∧
    (∀ n, n ∈ topo ↔ reachable diamond 2 n) ∧
    (∀ i n c, topo !! i = Some n → edge diamond n c →
              ∃ j, j < i ∧ topo !! j = Some c).
Proof.
  split; [reflexivity|]. split; [simpl; lia|].
  apply buildTopo_topological; [reflexivity|simpl; lia].
Defined.

Lemma Backward_frame_witness :
  wf diamond ∧ 2 < length diamond ∧ ¬ reachable diamond 2 3 ∧
  ∀ (math_Pow : float → float → float) (math_Log : float → float),
  ∃ h', Backward math_Pow math_Log 2 diamond = Some h' ∧
        length h' = length diamond ∧
        ∀ q, ¬ reachable diamond 2 q → h' !! q = diamond !! q.
Proof.
  split; [reflexivity|]. split; [simpl; lia|]. split.
  - intros H. apply (reachable_le diamond) in H; [lia|reflexivity].
  - intros P L. apply Backward_frame; [reflexivity|simpl; lia].
Defined.

Lemma Backward_root_grad_witness :
  wf diamond ∧ 2 < length diamond ∧
  ∀ (math_Pow : float → float → float) (math_Log : float → float),
  ∃ h', Backward math_Pow math_Log 2 diamond = Some h' ∧
        grad <$> h' !! 2 = Some 1%float ∧
        wf h' ∧ length h' = length diamond.
Proof.
  split; [reflexivity|]. split; [simpl; lia|].
  intros P L. apply Backward_root_grad; [reflexivity|simpl; lia].
Defined.

Lemma ReLU_rule_witness :
  diamond !! 0 = Some (mkValue 3%float 0%float [] EmptyString fn_nop) ∧
  ReLU 0 diamond
  = Some (4, diamond ++ [mkValue 3%float 0%float [0] "ReLU"%string
                                 (fn_ReLU 0 4)]) ∧
  ∀ (math_Pow : float → float → float) (math_Log : float → float),
  ∃ r h2 h3,
    ReLU 0 [mkValue 0%float 0%float [] EmptyString fn_nop] = Some (r, h2) ∧
    Backward math_Pow math_Log r h2 = Some h3 ∧
    grad <$> h3 !! 0 = Some 0%float.
Proof.
  split; [reflexivity|]. split.
  - destruct (ReLU_rule pow_cases (λ x, x)) as [H _].
    destruct (H diamond 0 _ eq_refl) as [Hnode _]. exact Hnode.
  - intros P L. destruct (ReLU_rule P L) as [_ H]. exact (H []).
Defined.

Lemma Pow_rule_witness :
  pow_cases (-4)%float 1%float = (-4)%float ∧
  ∀ (math_Log : float → float) (fmt_f : float → string),
  ∃ p h2 h3,
    PowScalar pow_cases fmt_f 0 2%float
              [mkValue (-4)%float 0%float [] EmptyString fn_nop]
    = Some (p, h2) ∧
    Backward pow_cases math_Log p h2 = Some h3 ∧
    grad <$> h3 !! 0 = Some (-8)%float.
Proof.
  split; [reflexivity|]. intros L f.
  destruct (Pow_rule pow_cases L f eq_refl) as [_ H].
  destruct (H []) as (p & h2 & h3 & ne & H1 & H2 & H3 & _).
  exists p, h2, h3. split; [exact H1|]. split; [exact H2|exact H3].
Defined.

Lemma Div_by_zero_witness :
  let A := mkValue 1%float 0%float [] EmptyString fn_nop in
  let B := mkValue (-0)%float 0%float [] EmptyString fn_nop in
  pow_cases 0%float (-1)%float = infinity ∧
  pow_cases (-0)%float (-1)%float = neg_infinity ∧
  [A; B] !! 1 = Some B ∧
  ∀ fmt_f : float → string,
  ∃ h', Div pow_cases fmt_f 0 1 [A; B] = Some (4, h') ∧
        data <$> h' !! 3 = Some neg_infinity.
Proof.
  intros A B. split; [reflexivity|]. split; [reflexivity|].
  split; [reflexivity|]. intros f.
  destruct (Div_by_zero pow_cases f [A; B] 0 1 A B
              eq_refl eq_refl eq_refl eq_refl (or_intror eq_refl))
    as (_ & H & _).
  eexists. split; [exact H|reflexivity].
Defined.

(** ** Differentiating twice from the same root *)

(** Adding 0 on the left changes a float only when it is the negative
    zero (from the Standard Library's specification of binary64 addition,
    [add_spec]). *)
Lemma float_add_0_l (c : float) : (0 + c)%float = c ∨ c = (-0)%float.
Proof.
  destruct (Prim2SF c) as [s|s| |s m e] eqn:Hc.
  - destruct s.
    + right. apply Prim2SF_inj. rewrite Hc. reflexivity.
    + left. apply Prim2SF_inj. rewrite add_spec, Hc. reflexivity.
  - left. apply Prim2SF_inj. rewrite add_spec, Hc. reflexivity.
  - left. apply Prim2SF_inj. rewrite add_spec, Hc. reflexivity.
  - left. apply Prim2SF_inj. rewrite add_spec, Hc. reflexivity.
Qed.

Lemma add_term_twice (c : option float) :
  add_term c (add_term c 0%float)
  = (add_term c 0%float + add_term c 0%float)%float.
Proof.
  destruct c as [d|]; simpl; [|reflexivity].
  destruct (float_add_0_l d) as [H| ->]; [by rewrite H|reflexivity].
Qed.

Lemma erase_data_at (k k' : heap) (q : addr) :
  erase k' = erase k → data_at k' q = data_at k q.
Proof.
  intros He. unfold data_at.
  destruct (k !! q) as [nq|] eqn:Hq.
  - destruct (erase_lookup k k' q nq He Hq) as (nq' & Hq' & Heq).
    apply set_grad_0_inv in Heq as (Hd & _). rewrite Hq'. simpl. by rewrite Hd.
  - apply lookup_ge_None in Hq. rewrite <- (erase_length _ _ He) in Hq.
    apply lookup_ge_None in Hq. by rewrite Hq.
Qed.

Ltac give_node tac :=
  eexists _, _, _; split; [reflexivity|]; split; [eassumption|];
  split; [tac|reflexivity].

Section Twice.

Variable math_Pow : float -> float -> float.
Variable math_Log : float -> float.

(** The term a rule adds depends on the values of the store and on the
    gradient of the rule's own node only. *)
Lemma rule_term_stable (root a : addr) (nd : Value) (k k' : heap) :
  closure_ok root nd = true → erase k' = erase k →
  grad_at k' root = grad_at k root →
  rule_term math_Pow math_Log (backward nd) k' a
  = rule_term math_Pow math_Log (backward nd) k a.
Proof.
  intros Hcl He Hg. unfold closure_ok in Hcl.
  destruct (backward nd) as [|v o out|v out|v o out|v o out|v out]; simpl;
    try (apply bool_decide_eq_true in Hcl as [-> _]);
    rewrite ?(erase_data_at k k' _ He), ?Hg; reflexivity.
Qed.

Lemma Add_backward (k : heap) (v o out : addr) (mv mo mout : Value) :
  k !! v = Some mv → k !! o = Some mo → k !! out = Some mout →
  out ≠ v → v ≠ o →
  call math_Pow math_Log (fn_Add v o out) k
  = Some (<[o := set_grad (grad mo + grad mout)%float mo]>
            (<[v := set_grad (grad mv + grad mout)%float mv]> k)).
Proof.
  intros Hv Ho Hout Hne Hvo. simpl. rewrite Hout. simpl.
  rewrite (add_grad_Some v _ k mv Hv). simpl.
  rewrite list_lookup_insert_ne by done. rewrite Hout. simpl.
  apply add_grad_Some. by rewrite list_lookup_insert_ne.
Qed.

Lemma AddScalar_backward (k : heap) (v out : addr) (mv mout : Value) :
  k !! v = Some mv → k !! out = Some mout →
  call math_Pow math_Log (fn_AddScalar v out) k
  = Some (<[v := set_grad (grad mv + grad mout)%float mv]> k).
Proof.
  intros Hv Hout. simpl. rewrite Hout. simpl. by apply add_grad_Some.
Qed.

Lemma Multiply_backward (k : heap) (v o out : addr) (mv mo mout : Value) :
  k !! v = Some mv → k !! o = Some mo → k !! out = Some mout →
  out ≠ v → v ≠ o →
  call math_Pow math_Log (fn_Multiply v o out) k
  = Some (<[o := set_grad (grad mo + data mv * grad mout)%float mo]>
            (<[v := set_grad (grad mv + data mo * grad mout)%float mv]> k)).
Proof.
  intros Hv Ho Hout Hne Hvo. simpl. rewrite Ho, Hout. simpl.
  rewrite (add_grad_Some v _ k mv Hv). simpl.
  rewrite list_lookup_insert_eq by (by eapply lookup_lt_Some). simpl.
  rewrite list_lookup_insert_ne by done. rewrite Hout. simpl.
  apply add_grad_Some. by rewrite list_lookup_insert_ne.
Qed.

(** On a store built by the constructors, the rule of a node whose
    operands are pairwise distinct returns, and adds [rule_term] to the
    gradient of each of them. *)
Lemma call_term (k : heap) (root a : addr) (nd : Value) :
  wf k → k !! root = Some nd → a ∈ children nd → NoDup (children nd) →
  ∃ k2 ma ma2,
    call math_Pow math_Log (backward nd) k = Some k2 ∧
    k !! a = Some ma ∧ k2 !! a = Some ma2 ∧
    grad ma2
    = add_term (rule_term math_Pow math_Log (backward nd) k a) (grad ma).
Proof.
  intros Hwf Hroot Ha Hnd.
  pose proof (wf_lookup k root nd Hwf Hroot) as Hok.
  pose proof (lookup_lt_Some _ _ _ Hroot) as Hlen.
  assert (∀ c, c ∈ children nd → c < root) as Hlt
    by (intros c; by apply node_ok_children).
  assert (∀ c, c ∈ children nd → is_Some (k !! c)) as Hsome
    by (intros c Hc; apply lookup_lt_is_Some; specialize (Hlt c Hc); lia).
  unfold node_ok in Hok. apply andb_prop in Hok as [_ Hcl].
  unfold closure_ok in Hcl.
  destruct (backward nd) as [|v o out|v out|v o out|v o out|v out] eqn:Hb;
    try (apply bool_decide_eq_true in Hcl as [-> Hcs]; rewrite Hcs in *).
  - destruct (Hsome a Ha) as [ma Hma]. exists k, ma, ma. by repeat split.
  - apply NoDup_cons in Hnd as [Hvo _]. rewrite list_elem_of_singleton in Hvo.
    destruct (Hsome v ltac:(set_solver)) as [mv Hv].
    destruct (Hsome o ltac:(set_solver)) as [mo Ho].
    assert (v < root) by (apply Hlt; set_solver).
    assert (o < root) by (apply Hlt; set_solver).
    rewrite (Add_backward k v o root mv mo nd Hv Ho Hroot) by (done || lia).
    simpl. unfold grad_at. rewrite Hroot. simpl.
    apply elem_of_cons in Ha as [-> | Ha%list_elem_of_singleton].
    + give_node ltac:(rewrite list_lookup_insert_ne by done;
                      apply list_lookup_insert_eq; lia).
    + subst a.
      give_node ltac:(apply list_lookup_insert_eq; rewrite length_insert; lia).
  - destruct (Hsome v ltac:(set_solver)) as [mv Hv].
    assert (v < root) by (apply Hlt; set_solver).
    rewrite (AddScalar_backward k v root mv nd Hv Hroot).
    simpl. unfold grad_at. rewrite Hroot. simpl.
    apply list_elem_of_singleton in Ha as ->.
    give_node ltac:(apply list_lookup_insert_eq; lia).
  - apply NoDup_cons in Hnd as [Hvo _]. rewrite list_elem_of_singleton in Hvo.
    destruct (Hsome v ltac:(set_solver)) as [mv Hv].
    destruct (Hsome o ltac:(set_solver)) as [mo Ho].
    assert (v < root) by (apply Hlt; set_solver).
    assert (o < root) by (apply Hlt; set_solver).
    rewrite (Multiply_backward k v o root mv mo nd Hv Ho Hroot)
      by (done || lia).
    simpl. unfold grad_at, data_at. rewrite Hroot. simpl.
    apply elem_of_cons in Ha as [-> | Ha%list_elem_of_singleton].
    + rewrite decide_True by done. rewrite Ho. simpl.
      give_node ltac:(rewrite list_lookup_insert_ne by done;
                      apply list_lookup_insert_eq; lia).
    + subst a. rewrite decide_False by done. rewrite Hv. simpl.
      give_node ltac:(apply list_lookup_insert_eq; rewrite length_insert; lia).
  - apply NoDup_cons in Hnd as [Hvo _]. rewrite list_elem_of_singleton in Hvo.
    destruct (Hsome v ltac:(set_solver)) as [mv Hv].
    destruct (Hsome o ltac:(set_solver)) as [mo Ho].
    assert (v < root) by (apply Hlt; set_solver).
    assert (o < root) by (apply Hlt; set_solver).
    destruct (Pow_backward math_Pow math_Log k v o root mv mo nd Hv Ho Hroot
                ltac:(lia)) as (mb1 & Hb1 & Hmb & Hcall).
    rewrite Hcall. specialize (Hmb Hvo). subst mb1.
    simpl. unfold grad_at, data_at. rewrite Hv, Ho, Hroot. simpl.
    apply elem_of_cons in Ha as [-> | Ha%list_elem_of_singleton].
    + rewrite decide_True by done.
      destruct (negb (PrimFloat.eqb (data mv) 0));
        destruct (PrimFloat.ltb 0 (data mv));
        give_node ltac:(rewrite ?(list_lookup_insert_ne _ o v) by done;
                        first [apply list_lookup_insert_eq; lia|exact Hv]).
    + subst a. rewrite decide_False by done.
      destruct (PrimFloat.ltb 0 (data mv));
        give_node ltac:(first [ apply list_lookup_insert_eq;
                                by apply lookup_lt_Some in Hb1
                              | exact Hb1 ]).
  - destruct (Hsome v ltac:(set_solver)) as [mv Hv].
    assert (v < root) by (apply Hlt; set_solver).
    rewrite (ReLU_backward math_Pow math_Log k v root mv nd Hv Hroot).
    simpl. unfold grad_at, data_at. rewrite Hv. simpl.
    apply list_elem_of_singleton in Ha as ->.
    destruct (PrimFloat.ltb 0 (data mv)).
    + rewrite Hroot. simpl.
      give_node ltac:(apply list_lookup_insert_eq; lia).
    + exists k, mv, mv. by repeat split.
Qed.

(** On a store built by the constructors, the gradient that a pass
    leaves on a node used by the root alone is the one the root's own rule
    leaves there: no later rule of the pass writes to it. *)
Lemma Backward_root_only (h : heap) (root a : addr) (nd : Value) :
  wf h → h !! root = Some nd →
  (∀ m, reachable h root m → edge h m a → m = root) →
  ∃ k2 h',
    call math_Pow math_Log (backward nd) (<[root := set_grad 1%float nd]> h)
    = Some k2 ∧
    Backward math_Pow math_Log root h = Some h' ∧
    h' !! a = k2 !! a ∧
    erase h' = erase h ∧
    h' !! root = Some (set_grad 1%float nd).
Proof.
  intros Hwf Hnd Honly.
  pose proof (lookup_lt_Some _ _ _ Hnd) as Hroot.
  destruct (Backward_ok math_Pow math_Log h root Hwf Hroot)
    as (nd0 & h0 & Hnd0 & Hrun0 & He0 & Hr0 & _).
  rewrite Hnd in Hnd0. injection Hnd0 as <-.
  assert (modify root (set_grad 1%float) h
          = Some (<[root := set_grad 1%float nd]> h)) as Hmod
    by (unfold modify; by rewrite Hnd).
  destruct (modify_grad_erase root (λ _, 1%float) h _ Hmod) as [He1 _].
  set (h1 := <[root := set_grad 1%float nd]> h) in *.
  assert (wf h1) as Hwf1 by (by apply (erase_wf h)).
  assert (length h1 = length h) as Hlen1 by (by apply erase_length).
  assert (h1 !! root = Some (set_grad 1%float nd)) as Hnd1
    by (by apply list_lookup_insert_eq).
  assert (Forall (λ c, c < length h1 ∧ c < length h1)
                 (children (set_grad 1%float nd))) as Hcs.
  { apply Forall_forall. intros c Hc.
    assert (c < root)
      by (eapply node_ok_children; [by eapply wf_lookup|done]). lia. }
  destruct (foldM_buildTopo_ok (length h1) h1
              (λ n vis topo _ Hn,
                 buildTopo_ok h1 Hwf1 (length h1) n vis topo
                   ltac:(lia) Hn)
              (children (set_grad 1%float nd)) ({[root]} ∪ ∅) [] Hcs)
    as (vis' & pre & Hfold & Hpost).
  assert (root ∉ (∅ : gset addr)) as Hfresh by set_solver.
  pose proof (dfs_post_node h1 root _ ∅ vis' pre Hwf1 Hnd1 Hfresh Hpost)
    as (_ & Hnodup & _ & _ & Hreach & _).
  destruct (call_ok math_Pow math_Log root (set_grad 1%float nd) h1
              (wf_lookup h1 root _ Hwf1 Hnd1) Hnd1)
    as (k2 & Hcall & Hek2 & _).
  assert (wf k2) as Hwf2 by (by apply (erase_wf h1)).
  assert (Forall (λ m, m < length k2) (reverse pre)) as Hvalid.
  { apply Forall_forall. intros m Hm. rewrite elem_of_reverse in Hm.
    destruct (Hreach m ltac:(set_solver)) as (r & Hr & Hrm).
    apply list_elem_of_singleton in Hr as ->.
    apply (reachable_le h1) in Hrm; [|done].
    rewrite (erase_length _ _ Hek2). lia. }
  destruct (backward_loop_ok math_Pow math_Log (reverse pre)
              ({[root]} ∪ ∅) k2 Hwf2 Hvalid)
    as (p' & h' & Hloop & He' & Hframe).
  assert (Backward math_Pow math_Log root h = Some h') as Hrun.
  { unfold Backward. rewrite Hmod. cbn [mbind option_bind]. fold h1.
    rewrite buildTopo_fresh by done. rewrite Hnd1. cbn [mbind option_bind].
    rewrite Hfold. cbn [mbind option_bind fst snd].
    rewrite reverse_snoc, foldM_cons.
    rewrite backward_step_fresh by done. rewrite Hnd1.
    cbn [mbind option_bind]. simpl backward in *. rewrite Hcall.
    cbn [mbind option_bind]. rewrite app_nil_l, Hloop. reflexivity. }
  rewrite Hrun in Hrun0. injection Hrun0 as <-.
  exists k2, h'. split; [exact Hcall|]. split; [done|].
  split; [|split; [done|done]].
  apply Hframe. intros m Hm Hedge. rewrite elem_of_reverse in Hm.
  destruct (Hreach m ltac:(set_solver)) as (r & Hr & Hrm).
  apply list_elem_of_singleton in Hr as ->.
  assert (m = root) as ->.
  { apply Honly.
    - by apply (erase_reachable h1 h).
    - apply (erase_edge k2 h); [congruence|done]. }
  apply NoDup_app in Hnodup as (_ & Hdisj & _).
  apply (Hdisj root Hm). set_solver.
Qed.

(** C5 (as the code has it). On a store built by the constructors, let
    [a] be an operand of [root] that [root] uses once (its operands are
    pairwise distinct) and that no other node reachable from [root] has as
    an operand, with gradient 0 beforehand.  Two passes from [root] with
    no reset in between both return; the gradient [g1] that the first
    leaves on [a] becomes [g1 + g1] after the second; the gradient of
    [root] is 1 after each. *)
Theorem Backward_twice_doubles_root_operands (h : heap) (root a : addr)
    (nd na : Value) :
  wf h → h !! root = Some nd → h !! a = Some na → grad na = 0%float →
  a ∈ children nd → NoDup (children nd) →
  (∀ m, reachable h root m → edge h m a → m = root) →
  ∃ h1 h2 g1,
    Backward math_Pow math_Log root h = Some h1 ∧
    Backward math_Pow math_Log root h1 = Some h2 ∧
    grad <$> h1 !! a = Some g1 ∧
    grad <$> h2 !! a = Some (g1 + g1)%float ∧
    grad <$> h1 !! root = Some 1%float ∧
    grad <$> h2 !! root = Some 1%float.
Proof.
  intros Hwf Hnd Hna Hg0 Hin Hdistinct Honly.
  assert (a ≠ root) as Hne.
  { assert (a < root) by (apply (edge_lt h); [done|by exists nd]). lia. }
  pose proof (lookup_lt_Some _ _ _ Hnd) as Hroot.
  (* first pass *)
  destruct (Backward_root_only h root a nd Hwf Hnd Honly)
    as (k2 & h1 & Hcall1 & Hrun1 & Ha1 & He1 & Hr1).
  set (k := <[root := set_grad 1%float nd]> h) in *.
  assert (erase k = erase h) as Hek.
  { unfold k, erase. rewrite list_fmap_insert. apply list_insert_id.
    rewrite list_lookup_fmap, Hnd. by destruct nd. }
  assert (wf k) as Hwfk by (by apply (erase_wf h)).
  assert (k !! root = Some (set_grad 1%float nd)) as Hkroot
    by (by apply list_lookup_insert_eq).
  destruct (call_term k root a (set_grad 1%float nd) Hwfk Hkroot Hin
              Hdistinct)
    as (k2' & ma & ma2 & Hcall1' & Hka & Hk2a & Hgrad1).
  simpl backward in *. rewrite Hcall1 in Hcall1'. injection Hcall1' as <-.
  assert (ma = na) as ->.
  { unfold k in Hka. rewrite list_lookup_insert_ne in Hka by done. congruence. }
  rewrite Hg0 in Hgrad1.
  set (c := rule_term math_Pow math_Log (backward nd) k a) in *.
  (* second pass *)
  assert (wf h1) as Hwf1 by (by apply (erase_wf h)).
  assert (∀ m, reachable h1 root m → edge h1 m a → m = root) as Honly1.
  { intros m Hm Hedge. apply Honly.
    - by apply (erase_reachable h1 h).
    - by apply (erase_edge h1 h). }
  destruct (Backward_root_only h1 root a _ Hwf1 Hr1 Honly1)
    as (k3 & h2 & Hcall2 & Hrun2 & Ha2 & He2 & Hr2).
  assert (<[root := set_grad 1%float (set_grad 1%float nd)]> h1 = h1) as Hid
    by (by apply list_insert_id).
  rewrite Hid in Hcall2.
  destruct (call_term h1 root a (set_grad 1%float nd) Hwf1 Hr1 Hin Hdistinct)
    as (k3' & mb & mb2 & Hcall2' & Hh1a & Hk3a & Hgrad2).
  simpl backward in *. rewrite Hcall2 in Hcall2'. injection Hcall2' as <-.
  assert (rule_term math_Pow math_Log (backward nd) h1 a = c) as Hc.
  { apply (rule_term_stable root a nd k h1).
    - pose proof (wf_lookup h root nd Hwf Hnd) as Hok. unfold node_ok in Hok.
      by apply andb_prop in Hok as [_ ?].
    - congruence.
    - unfold grad_at. by rewrite Hr1, Hkroot. }
  rewrite Hc in Hgrad2.
  assert (grad mb = add_term c 0%float) as Hmb.
  { rewrite Ha1, Hk2a in Hh1a. injection Hh1a as <-. exact Hgrad1. }
  exists h1, h2, (add_term c 0%float).
  split; [exact Hrun1|]. split; [exact Hrun2|].
  split; [by rewrite Ha1, Hk2a; simpl; rewrite Hgrad1|].
  split.
  - rewrite Ha2, Hk3a. simpl. rewrite Hgrad2, Hmb. f_equal.
    apply add_term_twice.
  - split; [by rewrite Hr1|by rewrite Hr2].
Qed.

End Twice.

Lemma Backward_twice_doubles_root_operands_witness :
  wf diamond ∧
  diamond !! 2 = Some (mkValue 18%float 0%float [1; 0] "*"%string
                               (fn_Multiply 1 0 2)) ∧
  diamond !! 1 = Some (mkValue 6%float 0%float [0; 0] "+"%string
                               (fn_Add 0 0 1)) ∧
  (∀ m, reachable diamond 2 m → edge diamond m 1 → m = 2) ∧
  ∀ (math_Pow : float → float → float) (math_Log : float → float),
  ∃ h1 h2 g1,
    Backward math_Pow math_Log 2 diamond = Some h1 ∧
    Backward math_Pow math_Log 2 h1 = Some h2 ∧
    grad <$> h1 !! 1 = Some g1 ∧
    grad <$> h2 !! 1 = Some (g1 + g1)%float ∧
    grad <$> h1 !! 2 = Some 1%float ∧
    grad <$> h2 !! 2 = Some 1%float.
Proof.
  assert (∀ m, reachable diamond 2 m → edge diamond m 1 → m = 2) as Honly.
  { intros m Hr He. apply (reachable_le diamond) in Hr; [|reflexivity].
    apply (edge_lt diamond) in He; [lia|reflexivity]. }
  split; [reflexivity|]. split; [reflexivity|]. split; [reflexivity|].
  split; [exact Honly|]. intros P L.
  apply (Backward_twice_doubles_root_operands P L diamond 2 1 _ _
           eq_refl eq_refl eq_refl eq_refl).
  - apply elem_of_cons. by left.
  - apply NoDup_cons. split; [|apply NoDup_singleton].
    intros H. apply list_elem_of_singleton in H. discriminate H.
  - exact Honly.
Defined.

(** * Further properties of the engine *)

(** ** What [Backward] does to a store *)

Section BackwardFacts.

Variable math_Pow : float -> float -> float.
Variable math_Log : float -> float.
Variable fmt_f : float -> string.

Lemma erase_set_grad (h h' : heap) (p : addr) (nd : Value) :
  erase h' = erase h → h !! p = Some nd →
  ∃ g, h' !! p = Some (set_grad g nd).
Proof.
  intros He Hl. destruct (erase_lookup h h' p nd He Hl) as (nd' & Hl' & Heq).
  apply set_grad_0_inv in Heq as (Hd & Hc & Ho & Hb).
  exists (grad nd'). rewrite Hl'. f_equal. destruct nd, nd'. simpl in *.
  unfold set_grad. simpl. congruence.
Qed.

(** X1. On a store built by the constructors, a differentiation pass from
    a valid root returns a store of the same size in which every node is
    the node it was up to its gradient: value, operands, operator tag and
    rule are never written. *)
Theorem Backward_only_gradients (h : heap) (root : addr) :
  wf h → root < length h →
  ∃ h', Backward math_Pow math_Log root h = Some h' ∧
        length h' = length h ∧
        ∀ p nd, h !! p = Some nd → ∃ g, h' !! p = Some (set_grad g nd).
Proof.
  intros Hwf Hroot.
  destruct (Backward_ok math_Pow math_Log h root Hwf Hroot)
    as (nd & h' & _ & Hrun & He & _).
  exists h'. split; [done|]. split; [by apply erase_length|].
  intros p x Hp. by eapply erase_set_grad.
Qed.

(** X2. On a store built by the constructors, [Backward] fails exactly
    when its receiver is not a node of the store. *)
Theorem Backward_None_iff (h : heap) (root : addr) :
  wf h →
  Backward math_Pow math_Log root h = None ↔ length h ≤ root.
Proof.
  intros Hwf. split.
  - intros HN. destruct (decide (root < length h)) as [Hlt|]; [|lia].
    destruct (Backward_ok math_Pow math_Log h root Hwf Hlt)
      as (nd & h' & _ & Hrun & _). congruence.
  - intros Hge. unfold Backward, modify.
    by rewrite (proj2 (lookup_ge_None h root) Hge).
Qed.

(** X3. Differentiating a node without operands whose rule is the no-op
    one (a leaf, or a scalar constant) only sets its gradient to 1, on any
    store. *)
Theorem Backward_leaf_root (h : heap) (root : addr) (nd : Value) :
  h !! root = Some nd → children nd = [] → backward nd = fn_nop →
  Backward math_Pow math_Log root h = Some (<[root := set_grad 1%float nd]> h).
Proof.
  intros Hl Hc Hb.
  rewrite (Backward_leaf_operands math_Pow math_Log h root nd Hl).
  - by rewrite Hb.
  - rewrite Hc. constructor.
Qed.

(** The guard of the reverse loop is idle on a list without duplicates
    that shares nothing with the processed set. *)
Lemma backward_loop_unguarded (l : list addr) :
  NoDup l → ∀ (processed : gset addr) (h : heap),
  (∀ n, n ∈ l → n ∉ processed) →
  snd <$> foldM (backward_step math_Pow math_Log) l (processed, h)
  = foldM (run_rule math_Pow math_Log) l h.
Proof.
  induction 1 as [|a l Ha Hl IH]; intros processed h Hdisj; [done|].
  rewrite !foldM_cons.
  rewrite backward_step_fresh by (apply Hdisj; set_solver).
  unfold run_rule.
  destruct (h !! a) as [nd|]; simpl; [|done].
  destruct (call math_Pow math_Log (backward nd) h) as [h1|]; simpl; [|done].
  apply (IH ({[a]} ∪ processed) h1).
  intros n Hn. specialize (Hdisj n ltac:(set_solver)). set_solver.
Qed.

(** X4. On a store built by the constructors, [Backward] reseeds the root
    and then runs the rule of every node of the topological order exactly
    once, from the last node of the order to the first; the root is the
    last node of the order, so its rule runs first.  The [processed] map
    never stops a rule from running. *)
Theorem Backward_replays_rules (h : heap) (root : addr) :
  wf h → root < length h →
  ∃ nd visited pre,
    h !! root = Some nd ∧
    let h1 := <[root := set_grad 1%float nd]> h in
    buildTopo (S (length h1)) h1 root (∅, []) = Some (visited, pre ++ [root]) ∧
    NoDup (pre ++ [root]) ∧
    Backward math_Pow math_Log root h
    = foldM (run_rule math_Pow math_Log) (root :: reverse pre) h1.
Proof.
  intros Hwf Hroot.
  destruct (modify_is_Some root (set_grad 1%float) h Hroot) as (nd & Hnd & Hmod).
  destruct (modify_grad_erase root (λ _, 1%float) h _ Hmod) as [He1 _].
  set (h1 := <[root := set_grad 1%float nd]> h) in *.
  assert (wf h1) as Hwf1 by (by apply (erase_wf h)).
  assert (root < length h1) as Hroot1 by (by rewrite (erase_length _ _ He1)).
  assert (root ∉ (∅ : gset addr)) as Hfresh by set_solver.
  pose proof (lookup_lt_is_Some_2 h1 root Hroot1) as [nd1 Hnd1].
  assert (Forall (λ c, c < length h1 ∧ c < length h1) (children nd1)) as Hcs.
  { apply Forall_forall. intros c Hc.
    assert (c < root)
      by (eapply node_ok_children; [by eapply wf_lookup|done]). lia. }
  destruct (foldM_buildTopo_ok (length h1) h1
              (λ n vis topo _ Hn,
                 buildTopo_ok h1 Hwf1 (length h1) n vis topo
                   ltac:(lia) Hn)
              (children nd1) ({[root]} ∪ ∅) [] Hcs)
    as (vis' & pre & Hrun & Hpost).
  pose proof (dfs_post_node h1 root nd1 ∅ vis' pre Hwf1 Hnd1 Hfresh Hpost)
    as (_ & Hnodup & _).
  exists nd, vis', pre. split; [done|]. simpl. fold h1.
  assert (buildTopo (S (length h1)) h1 root (∅, [])
          = Some (vis', pre ++ [root])) as Htopo.
  { rewrite buildTopo_fresh by done. rewrite Hnd1. simpl.
    rewrite Hrun. done. }
  split; [exact Htopo|]. split; [exact Hnodup|].
  unfold Backward. rewrite Hmod. cbn [mbind option_bind]. fold h1.
  rewrite Htopo. cbn [mbind option_bind fst snd]. rewrite reverse_snoc.
  transitivity (snd <$> foldM (backward_step math_Pow math_Log)
                          (root :: reverse pre) (∅, h1)).
  - by destruct (foldM _ _ _) as [[??]|].
  - apply backward_loop_unguarded; [|set_solver].
    rewrite <- reverse_snoc. by rewrite reverse_Permutation.
Qed.

End BackwardFacts.

(** ** Running the engine on the last nodes of a store

    The nodes a scenario allocates sit at the end of the store, at the
    addresses [length h], [S (length h)], ...; the lemmas below move a
    read or a write at such an address to the list of the new nodes. *)

Lemma lookup_at (h t : heap) (i k : nat) :
  i = k + length h → (h ++ t) !! i = t !! k.
Proof. intros ->. rewrite lookup_app_r by lia. f_equal. lia. Qed.

Lemma modify_at (f : Value → Value) (h t : heap) (i k : nat) (nd : Value) :
  i = k + length h → t !! k = Some nd →
  modify i f (h ++ t) = Some (h ++ <[k := f nd]> t).
Proof.
  intros -> Hk. unfold modify. rewrite (lookup_at h t _ k eq_refl), Hk. simpl.
  by rewrite Nat.add_comm, insert_app_r.
Qed.

Lemma length_off (h t : heap) : length (h ++ t) = length t + length h.
Proof. rewrite length_app. lia. Qed.

Arguments modify : simpl never.
Arguments backward_step : simpl never.
Arguments Backward : simpl never.

Ltac at_offset lem :=
  first [ rewrite (lem 0) | rewrite (lem 1) | rewrite (lem 2) | rewrite (lem 3)
        | rewrite (lem 4) | rewrite (lem 5) | rewrite (lem 6) | rewrite (lem 7) ].

Ltac norm_store :=
  repeat first [ rewrite length_off | rewrite <- app_assoc ]; simpl.

Ltac store_step :=
  first
    [ rewrite (lookup_at _ _ _ 0) by reflexivity
    | rewrite (lookup_at _ _ _ 1) by reflexivity
    | rewrite (lookup_at _ _ _ 2) by reflexivity
    | rewrite (lookup_at _ _ _ 3) by reflexivity
    | rewrite (lookup_at _ _ _ 4) by reflexivity
    | rewrite (lookup_at _ _ _ 5) by reflexivity
    | rewrite (lookup_at _ _ _ 6) by reflexivity
    | rewrite (lookup_at _ _ _ 7) by reflexivity
    | erewrite (modify_at _ _ _ _ 0) by reflexivity
    | erewrite (modify_at _ _ _ _ 1) by reflexivity
    | erewrite (modify_at _ _ _ _ 2) by reflexivity
    | erewrite (modify_at _ _ _ _ 3) by reflexivity
    | erewrite (modify_at _ _ _ _ 4) by reflexivity
    | erewrite (modify_at _ _ _ _ 5) by reflexivity
    | erewrite (modify_at _ _ _ _ 6) by reflexivity
    | erewrite (modify_at _ _ _ _ 7) by reflexivity ].

Ltac run_store :=
  repeat first
    [ store_step
    | rewrite length_off
    | rewrite foldM_cons
    | rewrite buildTopo_seen by set_solver
    | rewrite buildTopo_fresh by (set_solver by lia)
    | rewrite backward_step_seen by set_solver
    | rewrite backward_step_fresh by (set_solver by lia)
    | progress unfold add_grad
    | progress simpl ].

(** ** The constructors as store transformers *)

Ltac old_or_new :=
  first [ by apply lookup_app_l_Some
        | rewrite (lookup_at _ _ _ 0) by reflexivity; reflexivity
        | rewrite (lookup_at _ _ _ 1) by reflexivity; reflexivity
        | rewrite (lookup_at _ _ _ 2) by reflexivity; reflexivity
        | rewrite (lookup_at _ _ _ 3) by reflexivity; reflexivity
        | rewrite (lookup_at _ _ _ 4) by reflexivity; reflexivity
        | rewrite (lookup_at _ _ _ 5) by reflexivity; reflexivity
        | rewrite (lookup_at _ _ _ 6) by reflexivity; reflexivity
        | rewrite (lookup_at _ _ _ 7) by reflexivity; reflexivity ].

Section Constructors.

Variable math_Pow : float -> float -> float.
Variable fmt_f : float -> string.

Lemma MulScalar_eq (v : addr) (scalar : float) (h : heap) (nv : Value) :
  h !! v = Some nv →
  MulScalar v scalar h
  = Some (S (length h),
          h ++ [mkValue scalar 0%float [] "scalar"%string fn_nop;
                mkValue (data nv * scalar)%float 0%float [v; length h]
                        "*"%string
                        (fn_Multiply v (length h) (S (length h)))]).
Proof.
  intros Hv. unfold MulScalar, convertToValue, alloc.
  erewrite Multiply_eq; [|old_or_new..]. by norm_store.
Qed.

Lemma Neg_eq (v : addr) (h : heap) (nv : Value) :
  h !! v = Some nv →
  Neg v h
  = Some (S (length h),
          h ++ [mkValue (-1)%float 0%float [] "neg"%string fn_nop;
                mkValue (data nv * -1)%float 0%float [v; length h]
                        "*"%string
                        (fn_Multiply v (length h) (S (length h)))]).
Proof.
  intros Hv. unfold Neg, convertToValue, alloc.
  erewrite Multiply_eq; [|old_or_new..]. by norm_store.
Qed.

Lemma PowScalar_eq (v : addr) (scalar : float) (h : heap) (nv : Value) :
  h !! v = Some nv →
  PowScalar math_Pow fmt_f v scalar h
  = Some (S (length h),
          h ++ [mkValue scalar 0%float [] "scalar"%string fn_nop;
                mkValue (math_Pow (data nv) scalar) 0%float [v; length h]
                        ("**" +:+ fmt_f scalar)%string
                        (fn_Pow v (length h) (S (length h)))]).
Proof.
  intros Hv. unfold PowScalar, convertToValue, alloc.
  erewrite Pow_eq; [|old_or_new..]. by norm_store.
Qed.

Lemma Sub_eq (v other : addr) (h : heap) (nv no : Value) :
  h !! v = Some nv → h !! other = Some no →
  Sub v other h
  = Some (S (S (length h)),
          h ++ [mkValue (-1)%float 0%float [] "neg"%string fn_nop;
                mkValue (data no * -1)%float 0%float [other; length h]
                        "*"%string
                        (fn_Multiply other (length h) (S (length h)));
                mkValue (data nv + data no * -1)%float 0%float
                        [v; S (length h)] "+"%string
                        (fn_Add v (S (length h)) (S (S (length h))))]).
Proof.
  intros Hv Ho. unfold Sub. rewrite (Neg_eq other h no Ho). simpl.
  erewrite Add_eq; [|old_or_new..]. by norm_store.
Qed.

Lemma SubScalar_eq (v : addr) (scalar : float) (h : heap) (nv : Value) :
  h !! v = Some nv →
  SubScalar v scalar h
  = Some (S (S (S (length h))),
          h ++ [mkValue scalar 0%float [] EmptyString fn_nop;
                mkValue (-1)%float 0%float [] "neg"%string fn_nop;
                mkValue (scalar * -1)%float 0%float
                        [length h; S (length h)] "*"%string
                        (fn_Multiply (length h) (S (length h))
                                     (S (S (length h))));
                mkValue (data nv + scalar * -1)%float 0%float
                        [v; S (S (length h))] "+"%string
                        (fn_Add v (S (S (length h))) (S (S (S (length h)))))]).
Proof.
  intros Hv. unfold SubScalar, convertToValue, alloc.
  erewrite Sub_eq; [|old_or_new..]. by norm_store.
Qed.

Lemma Div_eq (v other : addr) (h : heap) (nv no : Value) :
  h !! v = Some nv → h !! other = Some no →
  Div math_Pow fmt_f v other h
  = Some (S (S (length h)),
          h ++ [mkValue (-1)%float 0%float [] "scalar"%string fn_nop;
                mkValue (math_Pow (data no) (-1)%float) 0%float
                        [other; length h]
                        ("**" +:+ fmt_f (-1)%float)%string
                        (fn_Pow other (length h) (S (length h)));
                mkValue (data nv * math_Pow (data no) (-1)%float)%float
                        0%float [v; S (length h)] "*"%string
                        (fn_Multiply v (S (length h)) (S (S (length h))))]).
Proof.
  intros Hv Ho. unfold Div. rewrite (PowScalar_eq other (-1) h no Ho). simpl.
  erewrite Multiply_eq; [|old_or_new..]. by norm_store.
Qed.

Lemma DivScalar_eq (v : addr) (scalar : float) (h : heap) (nv : Value) :
  h !! v = Some nv →
  DivScalar math_Pow fmt_f v scalar h
  = Some (S (S (S (length h))),
          h ++ [mkValue scalar 0%float [] "scalar"%string fn_nop;
                mkValue (-1)%float 0%float [] "scalar"%string fn_nop;
                mkValue (math_Pow scalar (-1)%float) 0%float
                        [length h; S (length h)]
                        ("**" +:+ fmt_f (-1)%float)%string
                        (fn_Pow (length h) (S (length h)) (S (S (length h))));
                mkValue (data nv * math_Pow scalar (-1)%float)%float
                        0%float [v; S (S (length h))] "*"%string
                        (fn_Multiply v (S (S (length h)))
                                     (S (S (S (length h)))))]).
Proof.
  intros Hv. unfold DivScalar, convertToValue, alloc.
  erewrite Div_eq; [|old_or_new..]. by norm_store.
Qed.

End Constructors.

Section ConstructorFacts.

Variable math_Pow : float -> float -> float.
Variable fmt_f : float -> string.

Lemma extends_one (h : heap) (nd : Value) :
  grad nd = 0%float → extends h (length h) (h ++ [nd]).
Proof.
  intros Hg. exists [nd]. split; [done|]. split; [by rewrite length_snoc|].
  split; [done|]. by constructor.
Qed.

Lemma extends_trans (h h1 h2 : heap) (o1 o2 : addr) :
  extends h o1 h1 → extends h1 o2 h2 → extends h o2 h2.
Proof.
  intros (t1 & -> & Ho1 & Hl1 & Hg1) (t2 & -> & Ho2 & Hl2 & Hg2).
  exists (t1 ++ t2). split; [by rewrite app_assoc|]. split; [done|].
  split; [rewrite length_app in Hl2; lia|]. by apply Forall_app.
Qed.

Lemma Add_None (v other : addr) (h : heap) :
  Add v other h = None ↔ h !! v = None ∨ h !! other = None.
Proof.
  destruct (h !! v) as [nv|] eqn:Hv; destruct (h !! other) as [no|] eqn:Ho;
    [rewrite (Add_eq v other h nv no Hv Ho); naive_solver|..];
    unfold Add; rewrite Hv, ?Ho; simpl; naive_solver.
Qed.

Lemma Multiply_None (v other : addr) (h : heap) :
  Multiply v other h = None ↔ h !! v = None ∨ h !! other = None.
Proof.
  destruct (h !! v) as [nv|] eqn:Hv; destruct (h !! other) as [no|] eqn:Ho;
    [rewrite (Multiply_eq v other h nv no Hv Ho); naive_solver|..];
    unfold Multiply; rewrite Hv, ?Ho; simpl; naive_solver.
Qed.

Lemma Pow_None (v exp : addr) (h : heap) :
  Pow math_Pow fmt_f v exp h = None ↔ h !! v = None ∨ h !! exp = None.
Proof.
  destruct (h !! v) as [nv|] eqn:Hv; destruct (h !! exp) as [ne|] eqn:He;
    [rewrite (Pow_eq math_Pow fmt_f v exp h nv ne Hv He); naive_solver|..];
    unfold Pow; rewrite Hv, ?He; simpl; naive_solver.
Qed.

Lemma AddScalar_None (v : addr) (scalar : float) (h : heap) :
  AddScalar v scalar h = None ↔ h !! v = None.
Proof.
  destruct (h !! v) as [nv|] eqn:Hv;
    [rewrite (AddScalar_eq v scalar h nv Hv); naive_solver|].
  unfold AddScalar; rewrite Hv; simpl; naive_solver.
Qed.

Lemma ReLU_None (v : addr) (h : heap) : ReLU v h = None ↔ h !! v = None.
Proof.
  destruct (h !! v) as [nv|] eqn:Hv;
    [rewrite (ReLU_eq v h nv Hv); naive_solver|].
  unfold ReLU, convertToValue, alloc; rewrite Hv; simpl; naive_solver.
Qed.

Lemma Add_extends (v other out : addr) (h h' : heap) :
  Add v other h = Some (out, h') → extends h out h'.
Proof.
  intros H.
  destruct (h !! v) as [nv|] eqn:Hv;
    [|by rewrite (proj2 (Add_None v other h) (or_introl Hv)) in H].
  destruct (h !! other) as [no|] eqn:Ho;
    [|by rewrite (proj2 (Add_None v other h) (or_intror Ho)) in H].
  rewrite (Add_eq v other h nv no Hv Ho) in H. injection H as <- <-.
  by apply extends_one.
Qed.

Lemma Multiply_extends (v other out : addr) (h h' : heap) :
  Multiply v other h = Some (out, h') → extends h out h'.
Proof.
  intros H.
  destruct (h !! v) as [nv|] eqn:Hv;
    [|by rewrite (proj2 (Multiply_None v other h) (or_introl Hv)) in H].
  destruct (h !! other) as [no|] eqn:Ho;
    [|by rewrite (proj2 (Multiply_None v other h) (or_intror Ho)) in H].
  rewrite (Multiply_eq v other h nv no Hv Ho) in H. injection H as <- <-.
  by apply extends_one.
Qed.

Lemma Pow_extends (v exp out : addr) (h h' : heap) :
  Pow math_Pow fmt_f v exp h = Some (out, h') → extends h out h'.
Proof.
  intros H.
  destruct (h !! v) as [nv|] eqn:Hv;
    [|by rewrite (proj2 (Pow_None v exp h) (or_introl Hv)) in H].
  destruct (h !! exp) as [ne|] eqn:He;
    [|by rewrite (proj2 (Pow_None v exp h) (or_intror He)) in H].
  rewrite (Pow_eq math_Pow fmt_f v exp h nv ne Hv He) in H.
  injection H as <- <-. by apply extends_one.
Qed.

Lemma AddScalar_extends (v out : addr) (scalar : float) (h h' : heap) :
  AddScalar v scalar h = Some (out, h') → extends h out h'.
Proof.
  intros H.
  destruct (h !! v) as [nv|] eqn:Hv;
    [|by rewrite (proj2 (AddScalar_None v scalar h) Hv) in H].
  rewrite (AddScalar_eq v scalar h nv Hv) in H. injection H as <- <-.
  by apply extends_one.
Qed.

Lemma ReLU_extends (v out : addr) (h h' : heap) :
  ReLU v h = Some (out, h') → extends h out h'.
Proof.
  intros H.
  destruct (h !! v) as [nv|] eqn:Hv;
    [|by rewrite (proj2 (ReLU_None v h) Hv) in H].
  rewrite (ReLU_eq v h nv Hv) in H. injection H as <- <-.
  by apply extends_one.
Qed.

Lemma convertToValue_extends (d : float) (cs : list addr) (o : string)
    (h : heap) :
  extends h (convertToValue d cs o h).1 (convertToValue d cs o h).2.
Proof. by apply extends_one. Qed.

(** X5. The five constructors that allocate one node fail exactly when an
    operand is not a node of the store (the nil dereference of the
    source). *)
Theorem constructors_fail_iff (h : heap) (v other : addr) (scalar : float) :
  (Add v other h = None ↔ h !! v = None ∨ h !! other = None) ∧
  (AddScalar v scalar h = None ↔ h !! v = None) ∧
  (Multiply v other h = None ↔ h !! v = None ∨ h !! other = None) ∧
  (Pow math_Pow fmt_f v other h = None ↔ h !! v = None ∨ h !! other = None) ∧
  (ReLU v h = None ↔ h !! v = None).
Proof.
  split; [apply Add_None|]. split; [apply AddScalar_None|].
  split; [apply Multiply_None|]. split; [apply Pow_None|apply ReLU_None].
Qed.

(** X6. Whatever constructor is called, the store it returns is the old
    store followed by new nodes: no existing node is written, every new
    node starts with gradient 0, and the node returned is the last one. *)
Theorem constructors_extend (h h' : heap) (out : addr) :
  constructs math_Pow fmt_f h out h' →
  ∃ t, h' = h ++ t ∧ S out = length h' ∧ length h ≤ out ∧
       Forall (λ nd, grad nd = 0%float) t.
Proof.
  intros H. change (extends h out h').
  destruct H as [d|v other out h' H|v s out h' H|v other out h' H
                |v s out h' H|v e out h' H|v s out h' H|v out h' H
                |v out h' H|v other out h' H|v s out h' H
                |v other out h' H|v s out h' H].
  - by apply extends_one.
  - by eapply Add_extends.
  - by eapply AddScalar_extends.
  - by eapply Multiply_extends.
  - cbv beta iota zeta delta [MulScalar convertToValue alloc] in H.
    eapply extends_trans; [apply (convertToValue_extends s [] "scalar")|].
    by eapply Multiply_extends.
  - by eapply Pow_extends.
  - cbv beta iota zeta delta [PowScalar convertToValue alloc] in H.
    eapply extends_trans; [apply (convertToValue_extends s [] "scalar")|].
    by eapply Pow_extends.
  - by eapply ReLU_extends.
  - cbv beta iota zeta delta [Neg convertToValue alloc] in H.
    eapply extends_trans; [apply (convertToValue_extends (-1) [] "neg")|].
    by eapply Multiply_extends.
  - cbv beta iota zeta delta [Sub Neg convertToValue alloc] in H.
    destruct (Multiply other _ _) as [[n h1]|] eqn:Hn; [|done]. simpl in H.
    eapply extends_trans; [apply (convertToValue_extends (-1) [] "neg")|].
    eapply extends_trans; [by eapply Multiply_extends|by eapply Add_extends].
  - cbv beta iota zeta delta [SubScalar Sub Neg convertToValue alloc] in H.
    destruct (Multiply _ _ _) as [[n h1]|] eqn:Hn; [|done]. simpl in H.
    eapply extends_trans; [apply (convertToValue_extends s [] EmptyString)|].
    eapply extends_trans; [apply (convertToValue_extends (-1) [] "neg")|].
    eapply extends_trans; [by eapply Multiply_extends|by eapply Add_extends].
  - cbv beta iota zeta delta [Div PowScalar convertToValue alloc] in H.
    destruct (Pow _ _ other _ _) as [[p h1]|] eqn:Hp; [|done]. simpl in H.
    eapply extends_trans; [apply (convertToValue_extends (-1) [] "scalar")|].
    eapply extends_trans; [by eapply Pow_extends|by eapply Multiply_extends].
  - cbv beta iota zeta delta [DivScalar Div PowScalar convertToValue alloc] in H.
    destruct (Pow _ _ _ _ _) as [[p h1]|] eqn:Hp; [|done]. simpl in H.
    eapply extends_trans; [apply (convertToValue_extends s [] "scalar")|].
    eapply extends_trans; [apply (convertToValue_extends (-1) [] "scalar")|].
    eapply extends_trans; [by eapply Pow_extends|by eapply Multiply_extends].
Qed.

End ConstructorFacts.

(** ** Gradients of small programs *)

Ltac build_step :=
  first [ erewrite Add_eq by old_or_new
        | erewrite AddScalar_eq by old_or_new
        | erewrite Multiply_eq by old_or_new
        | erewrite MulScalar_eq by old_or_new
        | erewrite Neg_eq by old_or_new
        | erewrite Sub_eq by old_or_new
        | erewrite SubScalar_eq by old_or_new
        | erewrite ReLU_eq by old_or_new
        | erewrite PowScalar_eq by old_or_new
        | erewrite Div_eq by old_or_new
        | erewrite DivScalar_eq by old_or_new ];
  norm_store.

Ltac run_program :=
  unfold NewValue, alloc; cbv zeta; simpl; norm_store;
  repeat build_step;
  unfold Backward; run_store.

Ltac split_tests :=
  repeat (match goal with
          | |- context [if ?b then _ else _] => destruct b eqn:?
          end; run_store).

Section Gradients.

Variable math_Pow : float -> float -> float.
Variable math_Log : float -> float.

(** X7. For fresh leaves [a], [b] of values [x], [y] in any store,
    [Backward (Multiply a b)] leaves [0 + y * 1] on [a] and [0 + x * 1] on
    [b]; when both operands are the same leaf, it leaves
    [(0 + x * 1) + x * 1] on it. *)
Theorem Multiply_gradients (h : heap) (x y : float) :
  product_grads math_Pow math_Log h x y
  = Some ((0 + y * 1)%float, (0 + x * 1)%float) ∧
  square_grad math_Pow math_Log h x = Some (0 + x * 1 + x * 1)%float.
Proof.
  split.
  - unfold product_grads. run_program. reflexivity.
  - unfold square_grad. run_program. reflexivity.
Qed.

(** X8. For a fresh leaf [a] of value [x] in any store and any scalar [k]:
    [AddScalar a k] has value [x + k] and [Backward] leaves 1 on [a];
    [MulScalar a k] has value [x * k] and [Backward] leaves [0 + k * 1] on
    [a]; [Neg a] has value [x * -1] and [Backward] leaves -1 on [a];
    [SubScalar a k] has value [x + k * -1] and [Backward] leaves 1 on
    [a]. *)
Theorem scalar_variant_gradients (h : heap) (x k : float) :
  add_scalar_grad math_Pow math_Log h x k = Some ((x + k)%float, 1%float) ∧
  mul_scalar_grad math_Pow math_Log h x k
  = Some ((x * k)%float, (0 + k * 1)%float) ∧
  neg_grad math_Pow math_Log h x = Some ((x * -1)%float, (-1)%float) ∧
  sub_scalar_grad math_Pow math_Log h x k
  = Some ((x + k * -1)%float, 1%float).
Proof.
  split; [|split; [|split]].
  - unfold add_scalar_grad. run_program. reflexivity.
  - unfold mul_scalar_grad. run_program. reflexivity.
  - unfold neg_grad. run_program. reflexivity.
  - unfold sub_scalar_grad. run_program. reflexivity.
Qed.

(** X9. For fresh leaves [a], [b] of values [x], [y] in any store,
    [Sub a b] has value [x + y * -1], and [Backward] leaves 1 on [a] and
    -1 on [b]. *)
Theorem Sub_gradients (h : heap) (x y : float) :
  sub_grads math_Pow math_Log h x y
  = Some ((x + y * -1)%float, 1%float, (-1)%float).
Proof. unfold sub_grads. run_program. reflexivity. Qed.

(** X10. A leaf that the root reaches along two paths gets both
    contributions: for [c = (a + b) + a] over fresh leaves in any store,
    [Backward c] leaves 2 on [a] and 1 on [b]. *)
Theorem chained_add_gradients (h : heap) (x y : float) :
  chained_add_grads math_Pow math_Log h x y = Some (2%float, 1%float).
Proof. unfold chained_add_grads. run_program. reflexivity. Qed.

(** X11. A node used by two later nodes runs its rule after both of them:
    in [c4 = c2 + (c2 + 1)] with [c2 = (a + b) + 1] over fresh leaves in
    any store, [Backward c4] leaves 2 on [c2] and passes it on, so that
    [a] and [b] both end with gradient 2. *)
Theorem over_accumulation_gradients (h : heap) (x y : float) :
  over_accumulation_grads math_Pow math_Log h x y
  = Some (2%float, 2%float, 2%float).
Proof. unfold over_accumulation_grads. run_program. reflexivity. Qed.

(** X12. For a fresh leaf [a] of value [x] in any store, [ReLU a] has
    value [x] and [Backward] leaves 1 on [a] when [x > 0]; otherwise the
    value is 0 and the gradient of [a] stays 0. *)
Theorem ReLU_gradients (h : heap) (x : float) :
  relu_grad math_Pow math_Log h x
  = Some (if PrimFloat.ltb 0 x then (x, 1%float) else (0%float, 0%float)).
Proof. unfold relu_grad. run_program. split_tests; reflexivity. Qed.

End Gradients.

Section PowerGradients.

Variable math_Pow : float -> float -> float.
Variable math_Log : float -> float.
Variable fmt_f : float -> string.

(** X13. For a fresh leaf [a] of value [x] in any store and any scalar
    [k], [PowScalar a k] has value [Pow(x, k)]; [Backward] leaves
    [0 + k * Pow(x, k - 1) * 1] on [a] unless [x] is zero, in which case
    the gradient of [a] stays 0; and it leaves
    [0 + Log(x) * Pow(x, k) * 1] on the node holding [k] when [x > 0],
    and 0 otherwise.  Nothing is assumed of [math.Pow] and [math.Log]. *)
Theorem PowScalar_gradients (h : heap) (x k : float) :
  pow_scalar_grads math_Pow math_Log fmt_f h x k
  = Some (math_Pow x k,
          if negb (PrimFloat.eqb x 0)
          then (0 + k * math_Pow x (k - 1) * 1)%float else 0%float,
          if PrimFloat.ltb 0 x
          then (0 + math_Log x * math_Pow x k * 1)%float else 0%float).
Proof. unfold pow_scalar_grads. run_program. split_tests; reflexivity. Qed.

(** X14. For fresh leaves [a], [b] of values [x], [y] in any store,
    [Div a b] has value [x * Pow(y, -1)]; [Backward] leaves
    [0 + Pow(y, -1) * 1] on [a], and on [b] it leaves
    [0 + -1 * Pow(y, -2) * (0 + x * 1)] unless [y] is zero, in which case
    the gradient of [b] stays 0.  [DivScalar a k] has value
    [x * Pow(k, -1)] and [Backward] leaves [0 + Pow(k, -1) * 1] on [a]. *)
Theorem Div_gradients (h : heap) (x y : float) :
  div_grads math_Pow math_Log fmt_f h x y
  = Some ((x * math_Pow y (-1))%float,
          (0 + math_Pow y (-1) * 1)%float,
          if negb (PrimFloat.eqb y 0)
          then (0 + -1 * math_Pow y (-2) * (0 + x * 1))%float else 0%float) ∧
  div_scalar_grad math_Pow math_Log fmt_f h x y
  = Some ((x * math_Pow y (-1))%float, (0 + math_Pow y (-1) * 1)%float).
Proof.
  split.
  - unfold div_grads. run_program. split_tests; reflexivity.
  - unfold div_scalar_grad. run_program. split_tests; reflexivity.
Qed.

End PowerGradients.

(** ** Stores a client can build, and the derived constructors *)

Section Derived.

Variable math_Pow : float -> float -> float.
Variable math_Log : float -> float.
Variable fmt_f : float -> string.

(** X15. In every store a client can build from the empty store (with the
    constructors, [Backward] and resets of gradients), the operands of a
    node are nodes allocated before it, and the pointers captured by its
    rule are its own address and its operands: the graph is acyclic and
    every rule writes only to operands of its node. *)
Theorem built_append_only (h : heap) :
  built math_Pow math_Log fmt_f h →
  ∀ n nd, h !! n = Some nd →
    Forall (λ c, c < n) (children nd) ∧
    match backward nd with
    | fn_nop => True
    | fn_Add v other out | fn_Multiply v other out | fn_Pow v other out =>
        out = n ∧ children nd = [v; other]
    | fn_AddScalar v out | fn_ReLU v out => out = n ∧ children nd = [v]
    end.
Proof.
  intros Hb n nd Hl.
  pose proof (wf_lookup h n nd (built_wf _ _ _ h Hb) Hl) as Hok.
  split.
  - apply Forall_forall. intros c Hc. by eapply node_ok_children.
  - unfold node_ok in Hok. apply andb_prop in Hok as [_ Hcl].
    unfold closure_ok in Hcl.
    destruct (backward nd); [done|by apply bool_decide_eq_true in Hcl..].
Qed.

(** X16. Negation and subtraction are built from [Multiply] and [Add]:
    [Neg v] allocates the constant -1 and the product [v * -1];
    [Sub v other] allocates the constant -1, the product [other * -1] and
    the sum [v + other * -1]; [SubScalar v k] first allocates a node for
    [k] and then does the same.  Each returns its last node. *)
Theorem subtraction_nodes (h : heap) (v other : addr) (nv no : Value)
    (scalar : float) :
  h !! v = Some nv → h !! other = Some no →
  let k := length h in
  Neg v h
  = Some (S k,
          h ++ [mkValue (-1)%float 0%float [] "neg"%string fn_nop;
                mkValue (data nv * -1)%float 0%float [v; k] "*"%string
                        (fn_Multiply v k (S k))]) ∧
  Sub v other h
  = Some (S (S k),
          h ++ [mkValue (-1)%float 0%float [] "neg"%string fn_nop;
                mkValue (data no * -1)%float 0%float [other; k] "*"%string
                        (fn_Multiply other k (S k));
                mkValue (data nv + data no * -1)%float 0%float [v; S k]
                        "+"%string (fn_Add v (S k) (S (S k)))]) ∧
  SubScalar v scalar h
  = Some (S (S (S k)),
          h ++ [mkValue scalar 0%float [] EmptyString fn_nop;
                mkValue (-1)%float 0%float [] "neg"%string fn_nop;
                mkValue (scalar * -1)%float 0%float [k; S k] "*"%string
                        (fn_Multiply k (S k) (S (S k)));
                mkValue (data nv + scalar * -1)%float 0%float [v; S (S k)]
                        "+"%string (fn_Add v (S (S k)) (S (S (S k))))]).
Proof.
  intros Hv Ho k. split; [by apply Neg_eq|].
  split; [by apply Sub_eq|by apply SubScalar_eq].
Qed.

(** X17. The scalar variants and division are built from [Multiply] and
    [Pow]: [MulScalar v k] allocates a node for [k] and the product
    [v * k]; [PowScalar v k] a node for [k] and the power [Pow(v, k)];
    [Div v other] the constant -1, the power [Pow(other, -1)] and the
    product [v * Pow(other, -1)]; [DivScalar v k] first allocates a node
    for [k] and then does the same.  Each returns its last node. *)
Theorem scalar_and_division_nodes (h : heap) (v other : addr) (nv no : Value)
    (scalar : float) :
  h !! v = Some nv → h !! other = Some no →
  let k := length h in
  MulScalar v scalar h
  = Some (S k,
          h ++ [mkValue scalar 0%float [] "scalar"%string fn_nop;
                mkValue (data nv * scalar)%float 0%float [v; k] "*"%string
                        (fn_Multiply v k (S k))]) ∧
  PowScalar math_Pow fmt_f v scalar h
  = Some (S k,
          h ++ [mkValue scalar 0%float [] "scalar"%string fn_nop;
                mkValue (math_Pow (data nv) scalar) 0%float [v; k]
                        ("**" +:+ fmt_f scalar)%string
                        (fn_Pow v k (S k))]) ∧
  Div math_Pow fmt_f v other h
  = Some (S (S k),
          h ++ [mkValue (-1)%float 0%float [] "scalar"%string fn_nop;
                mkValue (math_Pow (data no) (-1)%float) 0%float [other; k]
                        ("**" +:+ fmt_f (-1)%float)%string
                        (fn_Pow other k (S k));
                mkValue (data nv * math_Pow (data no) (-1)%float)%float
                        0%float [v; S k] "*"%string
                        (fn_Multiply v (S k) (S (S k)))]) ∧
  DivScalar math_Pow fmt_f v scalar h
  = Some (S (S (S k)),
          h ++ [mkValue scalar 0%float [] "scalar"%string fn_nop;
                mkValue (-1)%float 0%float [] "scalar"%string fn_nop;
                mkValue (math_Pow scalar (-1)%float) 0%float [k; S k]
                        ("**" +:+ fmt_f (-1)%float)%string
                        (fn_Pow k (S k) (S (S k)));
                mkValue (data nv * math_Pow scalar (-1)%float)%float
                        0%float [v; S (S k)] "*"%string
                        (fn_Multiply v (S (S k)) (S (S (S k))))]).
Proof.
  intros Hv Ho k. split; [by apply MulScalar_eq|].
  split; [by apply PowScalar_eq|].
  split; [by apply Div_eq|by apply DivScalar_eq].
Qed.

End Derived.

(** ** Instances of the further properties on concrete stores *)

Lemma Backward_only_gradients_witness :
  wf diamond ∧ 2 < length diamond ∧
  ∀ (math_Pow : float → float → float) (math_Log : float → float),
  ∃ h', Backward math_Pow math_Log 2 diamond = Some h' ∧
        length h' = length diamond ∧
        ∀ p nd, diamond !! p = Some nd → ∃ g, h' !! p = Some (set_grad g nd).
Proof.
  split; [reflexivity|]. split; [simpl; lia|].
  intros P L. apply Backward_only_gradients; [reflexivity|simpl; lia].
Defined.

Lemma Backward_None_iff_witness :
  wf diamond ∧
  ∀ (math_Pow : float → float → float) (math_Log : float → float),
  Backward math_Pow math_Log 4 diamond = None ↔ length diamond ≤ 4.
Proof.
  split; [reflexivity|]. intros P L. apply Backward_None_iff. reflexivity.
Defined.

Lemma Backward_leaf_root_witness :
  let d := mkValue 5%float 0%float [] EmptyString fn_nop in
  diamond !! 3 = Some d ∧ children d = [] ∧ backward d = fn_nop ∧
  ∀ (math_Pow : float → float → float) (math_Log : float → float),
  Backward math_Pow math_Log 3 diamond
  = Some (<[3 := set_grad 1%float d]> diamond).
Proof.
  intros d. split; [reflexivity|]. split; [reflexivity|].
  split; [reflexivity|]. intros P L.
  apply Backward_leaf_root; reflexivity.
Defined.

Lemma Backward_replays_rules_witness :
  wf diamond ∧ 2 < length diamond ∧
  ∀ (math_Pow : float → float → float) (math_Log : float → float),
  ∃ nd visited pre,
    diamond !! 2 = Some nd ∧
    let h1 := <[2 := set_grad 1%float nd]> diamond in
    buildTopo (S (length h1)) h1 2 (∅, []) = Some (visited, pre ++ [2]) ∧
    NoDup (pre ++ [2]) ∧
    Backward math_Pow math_Log 2 diamond
    = foldM (run_rule math_Pow math_Log) (2 :: reverse pre) h1.
Proof.
  split; [reflexivity|]. split; [simpl; lia|].
  intros P L. apply Backward_replays_rules; [reflexivity|simpl; lia].
Defined.

Lemma constructors_extend_witness :
  let A := mkValue 3%float 0%float [] EmptyString fn_nop in
  let C := mkValue 6%float 0%float [0; 0] "+"%string (fn_Add 0 0 1) in
  constructs pow_cases (λ _, EmptyString) [A] 1 [A; C] ∧
  ∃ t, [A; C] = [A] ++ t ∧ 2 = length [A; C] ∧ length [A] ≤ 1 ∧
       Forall (λ nd, grad nd = 0%float) t.
Proof.
  intros A C.
  assert (constructs pow_cases (λ _, EmptyString) [A] 1 [A; C]) as H
    by exact (constructs_Add pow_cases _ [A] 0 0 1 [A; C] eq_refl).
  split; [exact H|]. exact (constructors_extend pow_cases _ [A] [A; C] 1 H).
Defined.

Lemma built_append_only_witness :
  let A := mkValue 3%float 0%float [] EmptyString fn_nop in
  let C := mkValue 6%float 0%float [0; 0] "+"%string (fn_Add 0 0 1) in
  built pow_cases (λ x, x) (λ _, EmptyString) [A; C] ∧
  Forall (λ c, c < 1) (children C) ∧ 1 = 1 ∧ children C = [0; 0].
Proof.
  intros A C.
  assert (built pow_cases (λ x, x) (λ _, EmptyString) [A; C]) as H.
  { apply (built_Add pow_cases _ _ 0 0 1 [A] [A; C]); [|reflexivity].
    exact (built_NewValue pow_cases _ _ 3%float [] (built_empty _ _ _)). }
  split; [exact H|].
  exact (built_append_only pow_cases _ _ [A; C] H 1 C eq_refl).
Defined.

Lemma subtraction_nodes_witness :
  diamond !! 0 = Some (mkValue 3%float 0%float [] EmptyString fn_nop) ∧
  diamond !! 3 = Some (mkValue 5%float 0%float [] EmptyString fn_nop) ∧
  Sub 0 3 diamond
  = Some (6,
          diamond ++ [mkValue (-1)%float 0%float [] "neg"%string fn_nop;
                      mkValue (-5)%float 0%float [3; 4] "*"%string
                              (fn_Multiply 3 4 5);
                      mkValue (-2)%float 0%float [0; 5] "+"%string
                              (fn_Add 0 5 6)]).
Proof.
  split; [reflexivity|]. split; [reflexivity|].
  destruct (subtraction_nodes diamond 0 3 _ _ 1%float eq_refl eq_refl)
    as (_ & H & _).
  exact H.
Defined.

Lemma scalar_and_division_nodes_witness :
  diamond !! 0 = Some (mkValue 3%float 0%float [] EmptyString fn_nop) ∧
  diamond !! 3 = Some (mkValue 5%float 0%float [] EmptyString fn_nop) ∧
  MulScalar 0 2%float diamond
  = Some (5,
          diamond ++ [mkValue 2%float 0%float [] "scalar"%string fn_nop;
                      mkValue 6%float 0%float [0; 4] "*"%string
                              (fn_Multiply 0 4 5)]).
Proof.
  split; [reflexivity|]. split; [reflexivity|].
  destruct (scalar_and_division_nodes pow_cases (λ _, EmptyString)
              diamond 0 3 _ _ 2%float eq_refl eq_refl)
    as (H & _).
  exact H.
Defined.
